(** * Table and field forms of the database module: identifier validation,
      error display and the API-name warning timer.

    Sources embedded here:
    - web-frontend/modules/database/components/sidebar/table/TableForm.vue
    - web-frontend/modules/database/components/field/FieldForm.vue
    - web-frontend/modules/core/mixins/superAdmin.js
    - the tooltip directive (initialize, terminate, bind, update, unbind)

    A component method is a computation over the component instance
    ([this]) in a small state monad, so that "reads [this] but never writes
    it" is a statement one proves and not a consequence of the typing.
    JavaScript strings are sequences of UTF-16 code units. *)

From Stdlib Require Import ZArith NArith List Bool String Ascii Lia.
From stdpp Require Import base gmap strings.
Import ListNotations.

Local Open Scope bool_scope.

(* ===================================================================== *)
(** ** JavaScript strings, values and the two regular expressions         *)
(* ===================================================================== *)

Module JS.

(** A string is its list of UTF-16 code units. *)
Definition str : Type := list N.

(** The code units of an ASCII literal. *)
Definition lit (s : string) : str :=
  List.map N_of_ascii (list_ascii_of_string s).

Definition str_eqb (a b : str) : bool :=
  bool_decide (a = b).

(** The primitive values the forms compare: [undefined], [null], numbers
    (entity ids) and strings. *)
Inductive value : Type :=
  | VUndefined
  | VNull
  | VNumber (z : Z)
  | VString (s : str).

(** [a === b] on these values. *)
Definition strict_eq (a b : value) : bool :=
  match a, b with
  | VUndefined, VUndefined => true
  | VNull, VNull => true
  | VNumber x, VNumber y => Z.eqb x y
  | VString x, VString y => str_eqb x y
  | _, _ => false
  end.

(** [Array.prototype.includes]: SameValueZero, which on these values is
    [===] (there is no NaN and no signed zero among them). *)
Definition includes (x : value) (l : list value) : bool :=
  existsb (strict_eq x) l.

(** ECMAScript WhiteSpace and LineTerminator code points, the characters
    [String.prototype.trim] strips. *)
Definition isWhiteSpace (c : N) : bool :=
  N.eqb c 9 || N.eqb c 10 || N.eqb c 11 || N.eqb c 12 || N.eqb c 13 ||
  N.eqb c 32 || N.eqb c 160 || N.eqb c 5760 ||
  (N.leb 8192 c && N.leb c 8202) ||
  N.eqb c 8232 || N.eqb c 8233 || N.eqb c 8239 || N.eqb c 8287 ||
  N.eqb c 12288 || N.eqb c 65279.

Fixpoint trimStart (s : str) : str :=
  match s with
  | [] => []
  | c :: r => if isWhiteSpace c then trimStart r else s
  end.

Definition trimEnd (s : str) : str := rev (trimStart (rev s)).

Definition trim (s : str) : str := trimEnd (trimStart s).

(** [s.slice(start)]: a negative [start] counts from the end, and the
    index is clamped to the string. *)
Definition slice (start : Z) (s : str) : str :=
  let len := Z.of_nat (List.length s) in
  let from := if Z.ltb start 0 then Z.max (len + start) 0 else Z.min start len in
  skipn (Z.to_nat from) s.

(** The character class [[a-z0-9_]]. *)
Definition api_name_char (c : N) : bool :=
  (N.leb 97 c && N.leb c 122) || (N.leb 48 c && N.leb c 57) || N.eqb c 95.

(** [/^[a-z0-9_]+$/.test(s)]: anchored at both ends (no [m] flag), one or
    more characters of the class. *)
Definition re_api_name_chars_test (s : str) : bool :=
  match s with
  | [] => false
  | _ :: _ => forallb api_name_char s
  end.

(** [/__/.test(s)]: two adjacent underscores anywhere in [s]. *)
Fixpoint re_double_underscore_test (s : str) : bool :=
  match s with
  | [] => false
  | c :: r =>
      match r with
      | d :: _ => (N.eqb c 95 && N.eqb d 95) || re_double_underscore_test r
      | [] => false
      end
  end.

Definition underscore : str := [95%N].

End JS.

(* ===================================================================== *)
(** ** Component methods as computations over the instance                *)
(* ===================================================================== *)

(** [M S A]: a computation that may read and write a state [S] (the
    component instance, or the instance together with the window). *)
Definition M (S A : Type) : Type := S -> A * S.

#[global] Instance M_ret {S} : MRet (M S) := fun A a s => (a, s).

#[global] Instance M_bind {S} : MBind (M S) :=
  fun A B k m s => let (a, s') := m s in k a s'.

(** Read a property of the state. *)
Definition gets {S A} (f : S -> A) : M S A := fun s => (f s, s).

(** Overwrite the state. *)
Definition modify {S} (f : S -> S) : M S unit := fun s => (tt, f s).

(** The value a computation returns from state [s], and the state it leaves. *)
Definition result {S A} (m : M S A) (s : S) : A := fst (m s).
Definition after {S A} (m : M S A) (s : S) : S := snd (m s).

(** A computation is read-only when it hands back the state it was given. *)
Definition readonly {S A} (m : M S A) : Prop := forall s, after m s = s.

(* ===================================================================== *)
(** ** Vuelidate: the two library validators and the per-field state      *)
(* ===================================================================== *)

Module Vuelidate.

(** [req] of vuelidate/lib/validators/common on a string: it is non-empty. *)
Definition req (value : JS.str) : bool :=
  negb (Nat.eqb (List.length value) 0).

(** [len] of a string: its number of code units. *)
Definition len (value : JS.str) : N := N.of_nat (List.length value).

Section Rules.
Context {S : Type}.

(** A validator is called with the component as [this] and the model value. *)
Definition validator : Type := JS.str -> M S bool.

(** The rules of one field, keyed by validator name, in the order the
    object literal declares them. *)
Definition rules : Type := list (string * validator).

(** [required]: a string is trimmed first. *)
Definition required : validator :=
  fun value => mret (req (JS.trim value)).

(** [maxLength(max)]: an empty value passes, otherwise the untrimmed length
    is compared. *)
Definition maxLength (max : N) : validator :=
  fun value => mret (negb (req value) || N.leb (len value) max).

(** Every rule of the field is run on the model value, in order. *)
Fixpoint run_rules (rs : rules) (value : JS.str) : M S (list (string * bool)) :=
  match rs with
  | [] => mret []
  | (key, v) :: rs' =>
      b ← v value;
      bs ← run_rules rs' value;
      mret ((key, b) :: bs)
  end.

Definition rules_readonly (rs : rules) : Prop :=
  Forall (fun kv => forall value, readonly (snd kv value)) rs.

(** The rule map [validations()] returns under [values], in declaration
    order: field name, then that field's rules. *)
Definition rulemap : Type := list (string * rules).

Definition rulemap_readonly (m : rulemap) : Prop :=
  Forall (fun fr => rules_readonly (snd fr)) m.

(** Where the component keeps the model values ([this.values]). *)
Variable model : S -> gmap string JS.str.

(** The rules of one field run on the current model value [values.<key>].
    [None] when [values] has no such key: the rules would be handed
    [undefined], on which the components' own validators raise. *)
Definition run_field (key : string) (rs : rules)
  : M S (option (list (string * bool))) :=
  vals ← gets model;
  match vals !! key with
  | Some value => bs ← run_rules rs value; mret (Some bs)
  | None => mret None
  end.

(** Every field of the rule map evaluated, in order. *)
Fixpoint run_fields (m : rulemap)
  : M S (list (string * option (list (string * bool)))) :=
  match m with
  | [] => mret []
  | (key, rs) :: m' =>
      r ← run_field key rs;
      rest ← run_fields m';
      mret ((key, r) :: rest)
  end.

End Rules.

Arguments rules : clear implicits.
Arguments rulemap : clear implicits.
Arguments validator : clear implicits.

(** The outcome of an evaluation: per field, per rule, pass or fail. *)
Definition outcome : Type := list (string * option (list (string * bool))).

(** Some rule of some field fails. A field without a model value counts
    as failing ([required], the first rule of every field of both forms,
    fails on [undefined]). *)
Definition some_invalid (rs : outcome) : bool :=
  existsb (fun kr => match snd kr with
                     | Some bs => existsb (fun kb => negb (snd kb)) bs
                     | None => true
                     end) rs.

(** What [$v.values.<field>] exposes to the template: the [$dirty] flag and
    one boolean per rule. *)
Record field : Type := {
  f_dirty : bool;
  f_results : list (string * bool);
}.

Fixpoint lookup_rule (key : string) (rs : list (string * bool)) : option bool :=
  match rs with
  | [] => None
  | (k, b) :: rs' => if String.eqb k key then Some b else lookup_rule key rs'
  end.

(** [$v.values.<field>.<key>] read in a boolean context: a key the rules do
    not define reads as [undefined], which is falsy. *)
Definition rule (v : field) (key : string) : bool :=
  match lookup_rule key (f_results v) with
  | Some b => b
  | None => false
  end.

(** [$invalid]: some rule fails. *)
Definition invalid (v : field) : bool :=
  existsb (fun kb => negb (snd kb)) (f_results v).

(** [$error]: [$dirty && $invalid] (no rule here is asynchronous). *)
Definition error (v : field) : bool := f_dirty v && invalid v.

(** The keys of the failing rules, in declaration order. *)
Definition failing (v : field) : list string :=
  List.map fst (List.filter (fun kb => negb (snd kb)) (f_results v)).

End Vuelidate.

(* ===================================================================== *)
(** ** Templates: conditional chains and what they render                 *)
(* ===================================================================== *)

Module Template.

(** What one of the message slots of a form control shows. *)
Inductive message : Type :=
  | Error (text : string)
  | Warning.

(** A [v-if] / [v-else-if] chain renders the first branch whose condition
    holds, and nothing when none does. *)
Fixpoint v_if_chain {A : Type} (branches : list (bool * A)) : option A :=
  match branches with
  | [] => None
  | (c, a) :: rest => if c then Some a else v_if_chain rest
  end.

Definition is_error (m : option message) : bool :=
  match m with
  | Some (Error _) => true
  | _ => false
  end.

Definition is_warning (m : option message) : bool :=
  match m with
  | Some Warning => true
  | _ => false
  end.

(** The text of the error a slot shows, if it shows one. *)
Definition error_text (m : option message) : option string :=
  match m with
  | Some (Error text) => Some text
  | _ => None
  end.

(** The first rule of [order] that fails in [v], with its message: the
    priority order of a display chain. *)
Fixpoint first_failing (order : list (string * string)) (v : Vuelidate.field)
  : option (string * string) :=
  match order with
  | [] => None
  | (key, text) :: rest =>
      if negb (Vuelidate.rule v key) then Some (key, text)
      else first_failing rest v
  end.

End Template.

(* ===================================================================== *)
(** ** The window's interval timers                                       *)
(* ===================================================================== *)

Module Window.

(** Timer ids are positive integers, hence truthy. *)
Definition handle : Type := positive.

Section Timers.
Context {C : Type}.

(** A registered [setInterval]: it fires when the clock reaches [i_due] and
    is then rescheduled one period later. Times are in milliseconds. *)
Record interval : Type := {
  i_handle : handle;
  i_period : N;
  i_due : N;
  i_callback : C;
}.

Record t : Type := {
  now : N;
  next_handle : handle;
  intervals : list interval;
}.

Definition setInterval (callback : C) (delay : N) : M t handle :=
  fun w =>
    (next_handle w,
     {| now := now w;
        next_handle := Pos.succ (next_handle w);
        intervals := intervals w ++
          [{| i_handle := next_handle w; i_period := delay;
              i_due := (now w + delay)%N; i_callback := callback |}] |}).

Definition clearInterval (h : handle) : M t unit :=
  modify (fun w =>
    {| now := now w;
       next_handle := next_handle w;
       intervals :=
         List.filter (fun i => negb (Pos.eqb (i_handle i) h)) (intervals w) |}).

Definition is_due (time : N) (i : interval) : bool := N.eqb (i_due i) time.

Definition reschedule (time : N) (i : interval) : interval :=
  if is_due time i
  then {| i_handle := i_handle i; i_period := i_period i;
          i_due := (time + i_period i)%N; i_callback := i_callback i |}
  else i.

(** One millisecond passes: the callbacks that are due, in registration
    order, and the window with those intervals rescheduled. *)
Definition elapse (w : t) : list C * t :=
  let time := (now w + 1)%N in
  (List.map i_callback (List.filter (is_due time) (intervals w)),
   {| now := time;
      next_handle := next_handle w;
      intervals := List.map (reschedule time) (intervals w) |}).

End Timers.

Arguments interval : clear implicits.
Arguments t : clear implicits.

Definition empty {C : Type} : t C :=
  {| now := 0%N; next_handle := 1%positive; intervals := [] |}.

End Window.

(* ===================================================================== *)
(** ** The API-name warning: [apiNameFocus] and [apiNameUnfocus]          *)
(* ===================================================================== *)

(** TableForm.vue (lines 126-137) and FieldForm.vue (lines 245-256) declare
    the same two methods, word for word; they are embedded once. *)
Module ApiNameWarning.

(** The part of the component instance the two methods use: the data
    property [api_name_focused] and the instance property
    [apiNameWarningInterval], which is [undefined] until the first blur. *)
Record instance : Type := {
  api_name_focused : bool;
  apiNameWarningInterval : option Window.handle;
}.

(** The one callback the forms register:
    [() => { this.api_name_focused = false }]. *)
Inductive callback : Type := HideWarning.

(** The instance in its window. [destroyed] is set when Vue tears the
    component down; [fired] records every callback run, with the time and
    whether the component was already destroyed. *)
Record world : Type := {
  this : instance;
  window : Window.t callback;
  destroyed : bool;
  fired : list (N * bool);
}.

Definition set_this (f : instance -> instance) (w : world) : world :=
  {| this := f (this w); window := window w;
     destroyed := destroyed w; fired := fired w |}.

(** A call into the window from the component. *)
Definition in_window {A : Type} (m : M (Window.t callback) A) : M world A :=
  fun w =>
    let (a, win) := m (window w) in
    (a, {| this := this w; window := win;
           destroyed := destroyed w; fired := fired w |}).

Definition cooldown : N := 500.

Definition apiNameFocus : M world unit :=
  h ← gets (fun w => apiNameWarningInterval (this w));
  match h with
  | Some h => in_window (Window.clearInterval h)
  | None => mret tt
  end;;
  modify (set_this (fun i =>
    {| api_name_focused := true;
       apiNameWarningInterval := apiNameWarningInterval i |})).

Definition apiNameUnfocus : M world unit :=
  h ← in_window (Window.setInterval HideWarning cooldown);
  modify (set_this (fun i =>
    {| api_name_focused := api_name_focused i;
       apiNameWarningInterval := Some h |})).

(** Running a callback; the run is recorded in [fired]. *)
Definition run_callback (w : world) (c : callback) : world :=
  match c with
  | HideWarning =>
      {| this := {| api_name_focused := false;
                    apiNameWarningInterval := apiNameWarningInterval (this w) |};
         window := window w;
         destroyed := destroyed w;
         fired := fired w ++ [(Window.now (window w), destroyed w)] |}
  end.

(** One millisecond passes and the due callbacks run. *)
Definition tick (w : world) : world :=
  let (callbacks, win) := Window.elapse (window w) in
  fold_left run_callback callbacks
    {| this := this w; window := win;
       destroyed := destroyed w; fired := fired w |}.

(** Vue tears the component down. Neither form declares a [beforeDestroy]
    or [destroyed] hook, so nothing of the component's own runs. *)
Definition destroy (w : world) : world :=
  {| this := this w; window := window w;
     destroyed := true; fired := fired w |}.

(** What can happen to a mounted form's API-name input. *)
Inductive event : Type :=
  | Focus     (* @focus="apiNameFocus()" *)
  | Blur      (* @blur="...; apiNameUnfocus()" *)
  | Tick      (* one millisecond passes *)
  | Destroy.  (* the component is unmounted *)

Definition step (w : world) (e : event) : world :=
  match e with
  | Focus => after apiNameFocus w
  | Blur => after apiNameUnfocus w
  | Tick => tick w
  | Destroy => destroy w
  end.

Definition run (es : list event) (w : world) : world := fold_left step es w.

Definition wait (ms : nat) : list event := repeat Tick ms.

(** [P] holds now and after each of the events [es] in turn. *)
Fixpoint always (P : world -> Prop) (es : list event) (w : world) : Prop :=
  match es with
  | [] => P w
  | e :: es' => P w /\ always P es' (step w e)
  end.

(** A freshly created form: [data()] sets [api_name_focused] to [false],
    no handle is stored and no timer is registered. *)
Definition init : world :=
  {| this := {| api_name_focused := false; apiNameWarningInterval := None |};
     window := Window.empty;
     destroyed := false;
     fired := [] |}.

Definition visible (w : world) : bool := api_name_focused (this w).

Definition pending (w : world) : list (Window.interval callback) :=
  Window.intervals (window w).

End ApiNameWarning.

(* ===================================================================== *)
(** ** The identifier rule as the specification words it                  *)
(* ===================================================================== *)

Module IdentifierRules.

Definition starts_with_underscore (s : JS.str) : bool :=
  match s with
  | c :: _ => N.eqb c 95
  | [] => false
  end.

Definition ends_with_underscore (s : JS.str) : bool :=
  starts_with_underscore (rev s).

(** The specification's [isValidApiNameFormat]: the trimmed string matches
    [^[a-z0-9_]+$], does not start or end with an underscore and has no two
    underscores in a row. *)
Definition isValidApiNameFormat (s : JS.str) : bool :=
  let s := JS.trim s in
  JS.re_api_name_chars_test s
  && negb (starts_with_underscore s)
  && negb (ends_with_underscore s)
  && negb (JS.re_double_underscore_test s).

(** What the methods' conjunction amounts to on the trimmed string: its
    second conjunct compares the whole string with ["_"], which the
    last-character test already excludes. *)
Definition format_test (p : JS.str) : bool :=
  JS.re_api_name_chars_test p
  && negb (ends_with_underscore p)
  && negb (JS.re_double_underscore_test p).

End IdentifierRules.

(* ===================================================================== *)
(** ** Entities and the parts shared by the two forms                     *)
(* ===================================================================== *)

Module Form.

(** A table or field as the store hands it over: a JavaScript object. *)
Abbreviation obj := (gmap string JS.value).

(** [o.key]; a missing property reads as [undefined]. *)
Definition prop (o : obj) (key : string) : JS.value :=
  default JS.VUndefined (o !! key).

(** What [data()] returns in both forms. *)
Record data_t : Type := {
  allowedValues : list string;
  values : gmap string JS.str;
  api_name_focused : bool;
}.

Fixpoint lookup_field {A : Type} (key : string) (m : list (string * A)) : option A :=
  match m with
  | [] => None
  | (k, a) :: m' => if String.eqb k key then Some a else lookup_field key m'
  end.

(** The messages of the templates. *)
Definition requiredField : string := "error.requiredField".
Definition nameTooLong : string := "error.nameTooLong".
Definition nameNotAllowed : string := "error.nameNotAllowed".
Definition fieldAlreadyExists : string := "fieldForm.fieldAlreadyExists".
Definition notValidFormat : string := "Not a valid API name format.".

End Form.

(* ===================================================================== *)
(** ** TableForm.vue                                                      *)
(* ===================================================================== *)

Module TableForm.
Import Form.

(** The component instance: props ([table]; [defaultValues] comes with the
    form mixin), the data of [data()] and Vuelidate's dirty flags. (The
    instance property [apiNameWarningInterval] lives with the two methods
    that use it, in [ApiNameWarning].) *)
Record vm : Type := {
  table : obj;
  defaultValues : option obj;
  dat : data_t;
  dirty : gset string;
}.

(** [data()] (lines 91-100). *)
Definition data : data_t :=
  {| allowedValues := ["name"; "api_name"];
     values := {[ "name" := []; "api_name" := [] ]};
     api_name_focused := false |}.

(** A newly created instance. *)
Definition create (table : obj) (defaultValues : option obj) : vm :=
  {| table := table; defaultValues := defaultValues; dat := data; dirty := ∅ |}.

(** computed [existingTableId] (lines 102-104). No other code of the
    component reads it. *)
Definition existingTableId : M vm JS.value :=
  d ← gets defaultValues;
  mret (match d with
        | Some d => prop d "id"
        | None => JS.VNull
        end).

(** method [mustUseValidAPINameCharacters] (lines 122-125). *)
Definition mustUseValidAPINameCharacters : Vuelidate.validator vm :=
  fun param =>
    let param := JS.trim param in
    mret (JS.re_api_name_chars_test param
          && negb (JS.str_eqb (JS.slice 0 param) JS.underscore)
          && negb (JS.str_eqb (JS.slice (-1) param) JS.underscore)
          && negb (JS.re_double_underscore_test param)).

Section Constants.
(** [MAX_FIELD_NAME_LENGTH] of database/utils/constants. *)
Variable MAX_FIELD_NAME_LENGTH : N.

(** [validations()] (lines 106-120). *)
Definition validations : M vm (Vuelidate.rulemap vm) :=
  mret
    [ ("name",
       [ ("required", Vuelidate.required);
         ("maxLength", Vuelidate.maxLength MAX_FIELD_NAME_LENGTH) ]);
      ("api_name",
       [ ("required", Vuelidate.required);
         ("maxLength", Vuelidate.maxLength MAX_FIELD_NAME_LENGTH);
         ("mustUseValidAPINameCharacters", mustUseValidAPINameCharacters) ]) ].

(** Where the instance keeps the model values. *)
Definition model (this : vm) : gmap string JS.str := values (dat this).

(** Every rule of [validations()] evaluated on the current values. *)
Definition evaluate : M vm Vuelidate.outcome :=
  m ← validations;
  Vuelidate.run_fields model m.

(** [$v.values.<key>] as the template reads it. *)
Definition v_field (key : string) : M vm (option Vuelidate.field) :=
  m ← validations;
  match lookup_field key m with
  | None => mret None
  | Some rs =>
      r ← Vuelidate.run_field model key rs;
      d ← gets dirty;
      mret (match r with
            | Some bs => Some {| Vuelidate.f_dirty := bool_decide (key ∈ d);
                                 Vuelidate.f_results := bs |}
            | None => None
            end)
  end.

(** [$v.$invalid]. *)
Definition invalid : M vm bool :=
  rs ← evaluate;
  mret (Vuelidate.some_invalid rs).

End Constants.

Definition set_dirty (d : gset string) (this : vm) : vm :=
  {| table := table this; defaultValues := defaultValues this;
     dat := dat this; dirty := d |}.

Definition set_values (v : gmap string JS.str) (this : vm) : vm :=
  {| table := table this; defaultValues := defaultValues this;
     dat := {| allowedValues := allowedValues (dat this); values := v;
               api_name_focused := api_name_focused (dat this) |};
     dirty := dirty this |}.

Definition set_props (t : obj) (d : option obj) (this : vm) : vm :=
  {| table := t; defaultValues := d; dat := dat this; dirty := dirty this |}.

(** [$v.values.<key>.$touch()]. *)
Definition touch (key : string) : M vm unit :=
  modify (fun this => set_dirty ({[ key ]} ∪ dirty this) this).

(** [v-model="values.<key>"]: the input writes what was typed. Both inputs
    of the table form are always rendered. *)
Definition input (key : string) (typed : JS.str) : M vm unit :=
  modify (fun this => set_values (<[ key := typed ]> (values (dat this))) this).

(** The messages under the name input (lines 14-26). *)
Definition name_message (v : Vuelidate.field) : option Template.message :=
  Template.v_if_chain
    [ (Vuelidate.f_dirty v && negb (Vuelidate.rule v "required"),
       Template.Error requiredField);
      (Vuelidate.f_dirty v && negb (Vuelidate.rule v "maxLength"),
       Template.Error nameTooLong) ].

(** The messages under the api_name input (lines 40-66). *)
Definition api_name_message (v : Vuelidate.field) (api_name_focused : bool)
  : option Template.message :=
  Template.v_if_chain
    [ (Vuelidate.f_dirty v && negb (Vuelidate.rule v "required"),
       Template.Error requiredField);
      (Vuelidate.f_dirty v
         && negb (Vuelidate.rule v "mustUseValidAPINameCharacters"),
       Template.Error notValidFormat);
      (Vuelidate.f_dirty v && negb (Vuelidate.rule v "maxLength"),
       Template.Error nameTooLong);
      (api_name_focused, Template.Warning) ].

(** The priority order each chain gives its errors. *)
Definition name_order : list (string * string) :=
  [ ("required", requiredField); ("maxLength", nameTooLong) ].

Definition api_name_order : list (string * string) :=
  [ ("required", requiredField);
    ("mustUseValidAPINameCharacters", notValidFormat);
    ("maxLength", nameTooLong) ].

End TableForm.

(* ===================================================================== *)
(** ** FieldForm.vue                                                      *)
(* ===================================================================== *)

Module FieldForm.
Import Form.

(** The props of the component (lines 144-164) and [defaultValues], the
    prop the form mixin adds. [forcedType] is a string or [null]. *)
Record props : Type := {
  table : obj;
  primary : bool;
  forcedType : option JS.str;
  creating : bool;
  defaultValues : option obj;
}.

(** The component instance: its props, the store getter [field/getAll]
    mapped to [fields], the data of [data()] and Vuelidate's dirty flags. *)
Record vm : Type := {
  prp : props;
  fields : list obj;
  dat : data_t;
  dirty : gset string;
}.

(** [data()] (lines 165-181). [this.forcedType || ''] is the forced type
    when there is one and the empty string otherwise. *)
Definition data (this : props) : data_t :=
  let data :=
    {| allowedValues := ["name"; "type"];
       values := {[ "name" := []; "type" := default [] (forcedType this) ]};
       api_name_focused := false |} in
  if negb (creating this)
  then {| allowedValues := allowedValues data ++ ["api_name"];
          values := <[ "api_name" := [] ]> (values data);
          api_name_focused := api_name_focused data |}
  else data.

(** A newly created instance. *)
Definition create (p : props) (fields : list obj) : vm :=
  {| prp := p; fields := fields; dat := data p; dirty := ∅ |}.

(** computed [existingFieldId] (lines 189-191). *)
Definition existingFieldId : M vm JS.value :=
  d ← gets (fun this => defaultValues (prp this));
  mret (match d with
        | Some d => prop d "id"
        | None => JS.VNull
        end).

(** The filter both uniqueness methods start with (lines 222-225 and
    229-232). *)
Definition fields_but_existing : M vm (list obj) :=
  fields ← gets fields;
  id ← existingFieldId;
  mret (if negb (JS.strict_eq id JS.VNull)
        then List.filter (fun f => negb (JS.strict_eq (prop f "id") id)) fields
        else fields).

(** method [mustHaveUniqueFieldName] (lines 221-227). *)
Definition mustHaveUniqueFieldName : Vuelidate.validator vm :=
  fun param =>
    fields ← fields_but_existing;
    mret (negb (JS.includes (JS.VString (JS.trim param))
                  (List.map (fun f => prop f "name") fields))).

(** method [mustHaveUniqueFieldAPIName] (lines 228-234). *)
Definition mustHaveUniqueFieldAPIName : Vuelidate.validator vm :=
  fun param =>
    fields ← fields_but_existing;
    mret (negb (JS.includes (JS.VString (JS.trim param))
                  (List.map (fun f => prop f "api_name") fields))).

(** method [mustUseValidAPINameCharacters] (lines 235-238). *)
Definition mustUseValidAPINameCharacters : Vuelidate.validator vm :=
  fun param =>
    let param := JS.trim param in
    mret (JS.re_api_name_chars_test param
          && negb (JS.str_eqb (JS.slice 0 param) JS.underscore)
          && negb (JS.str_eqb (JS.slice (-1) param) JS.underscore)
          && negb (JS.re_double_underscore_test param)).

Section Constants.
(** [MAX_FIELD_NAME_LENGTH] and [RESERVED_BASEROW_FIELD_NAMES] of
    database/utils/constants. *)
Variable MAX_FIELD_NAME_LENGTH : N.
Variable RESERVED_BASEROW_FIELD_NAMES : list JS.str.

(** method [mustNotClashWithReservedName] (lines 239-241). *)
Definition mustNotClashWithReservedName : Vuelidate.validator vm :=
  fun param =>
    mret (negb (JS.includes (JS.VString (JS.trim param))
                  (List.map JS.VString RESERVED_BASEROW_FIELD_NAMES))).

(** The rules of [api_name] (lines 210-215). *)
Definition api_name_rules : Vuelidate.rules vm :=
  [ ("required", Vuelidate.required);
    ("maxLength", Vuelidate.maxLength MAX_FIELD_NAME_LENGTH);
    ("mustHaveUniqueFieldAPIName", mustHaveUniqueFieldAPIName);
    ("mustUseValidAPINameCharacters", mustUseValidAPINameCharacters) ].

(** [validations()] (lines 196-219). *)
Definition validations : M vm (Vuelidate.rulemap vm) :=
  let validations :=
    [ ("name",
       [ ("required", Vuelidate.required);
         ("maxLength", Vuelidate.maxLength MAX_FIELD_NAME_LENGTH);
         ("mustHaveUniqueFieldName", mustHaveUniqueFieldName);
         ("mustNotClashWithReservedName", mustNotClashWithReservedName) ]);
      ("type", [ ("required", Vuelidate.required) ]) ] in
  creating ← gets (fun this => creating (prp this));
  mret (if negb creating
        then validations ++ [ ("api_name", api_name_rules) ]
        else validations).

(** Where the instance keeps the model values. *)
Definition model (this : vm) : gmap string JS.str := values (dat this).

(** Every rule of [validations()] evaluated on the current values. *)
Definition evaluate : M vm Vuelidate.outcome :=
  m ← validations;
  Vuelidate.run_fields model m.

(** [$v.values.<key>] as the template reads it. *)
Definition v_field (key : string) : M vm (option Vuelidate.field) :=
  m ← validations;
  match lookup_field key m with
  | None => mret None
  | Some rs =>
      r ← Vuelidate.run_field model key rs;
      d ← gets dirty;
      mret (match r with
            | Some bs => Some {| Vuelidate.f_dirty := bool_decide (key ∈ d);
                                 Vuelidate.f_results := bs |}
            | None => None
            end)
  end.

(** [$v.$invalid]. *)
Definition invalid : M vm bool :=
  rs ← evaluate;
  mret (Vuelidate.some_invalid rs).

End Constants.

Definition set_dirty (d : gset string) (this : vm) : vm :=
  {| prp := prp this; fields := fields this; dat := dat this; dirty := d |}.

Definition set_values (v : gmap string JS.str) (this : vm) : vm :=
  {| prp := prp this; fields := fields this;
     dat := {| allowedValues := allowedValues (dat this); values := v;
               api_name_focused := api_name_focused (dat this) |};
     dirty := dirty this |}.

(** [$v.values.<key>.$touch()]. *)
Definition touch (key : string) : M vm unit :=
  modify (fun this => set_dirty ({[ key ]} ∪ dirty this) this).

(** [$v.$touch()]: every field of the rule map becomes dirty. *)
Definition touch_all (max : N) (reserved : list JS.str) : M vm unit :=
  m ← validations max reserved;
  modify (fun this =>
    set_dirty (list_to_set (List.map fst m) ∪ dirty this) this).

(** [$v.$reset()]: no field is dirty. *)
Definition reset_dirty : M vm unit := modify (set_dirty ∅).

(** The operations on the dirty flags. *)
Inductive touch_op : Type :=
  | TouchField (key : string)
  | TouchAll
  | ResetDirty.

Definition apply_touch (max : N) (reserved : list JS.str) (this : vm)
    (op : touch_op) : vm :=
  match op with
  | TouchField key => after (touch key) this
  | TouchAll => after (touch_all max reserved) this
  | ResetDirty => after reset_dirty this
  end.

Definition set_creating (c : bool) (p : props) : props :=
  {| table := table p; primary := primary p; forcedType := forcedType p;
     creating := c; defaultValues := defaultValues p |}.

Definition set_fields (fs : list obj) (this : vm) : vm :=
  {| prp := prp this; fields := fs; dat := dat this; dirty := dirty this |}.

Definition set_defaultValues (d : option obj) (this : vm) : vm :=
  {| prp := {| table := table (prp this); primary := primary (prp this);
               forcedType := forcedType (prp this);
               creating := creating (prp this); defaultValues := d |};
     fields := fields this; dat := dat this; dirty := dirty this |}.

(** Which inputs the template renders: the name input always (line 5),
    the api_name input under [v-if="!creating"] (line 45), the type
    dropdown under [v-if="forcedType === null"] (line 94). *)
Definition rendered (this : vm) (key : string) : bool :=
  if String.eqb key "name" then true
  else if String.eqb key "api_name" then negb (creating (prp this))
  else if String.eqb key "type"
       then match forcedType (prp this) with None => true | Some _ => false end
  else false.

(** [v-model="values.<key>"]: a rendered input writes what was typed. *)
Definition input (key : string) (typed : JS.str) : M vm unit :=
  modify (fun this =>
    if rendered this key
    then set_values (<[ key := typed ]> (values (dat this))) this
    else this).

(** The messages under the name input (lines 14-42). *)
Definition name_message (v : Vuelidate.field) : option Template.message :=
  Template.v_if_chain
    [ (Vuelidate.f_dirty v && negb (Vuelidate.rule v "required"),
       Template.Error requiredField);
      (Vuelidate.f_dirty v && negb (Vuelidate.rule v "mustHaveUniqueFieldName"),
       Template.Error fieldAlreadyExists);
      (Vuelidate.f_dirty v
         && negb (Vuelidate.rule v "mustNotClashWithReservedName"),
       Template.Error nameNotAllowed);
      (Vuelidate.f_dirty v && negb (Vuelidate.rule v "maxLength"),
       Template.Error nameTooLong) ].

(** The messages under the api_name input (lines 57-91). *)
Definition api_name_message (v : Vuelidate.field) (api_name_focused : bool)
  : option Template.message :=
  Template.v_if_chain
    [ (Vuelidate.f_dirty v && negb (Vuelidate.rule v "required"),
       Template.Error requiredField);
      (Vuelidate.f_dirty v
         && negb (Vuelidate.rule v "mustHaveUniqueFieldAPIName"),
       Template.Error fieldAlreadyExists);
      (Vuelidate.f_dirty v
         && negb (Vuelidate.rule v "mustUseValidAPINameCharacters"),
       Template.Error notValidFormat);
      (Vuelidate.f_dirty v && negb (Vuelidate.rule v "maxLength"),
       Template.Error nameTooLong);
      (api_name_focused, Template.Warning) ].

(** The whole api_name control stands under [v-if="!creating"] (line 45). *)
Definition api_name_control (creating : bool) (v : Vuelidate.field)
    (api_name_focused : bool) : option Template.message :=
  if negb creating then api_name_message v api_name_focused else None.

(** The message under the type dropdown (lines 110-112). The dropdown and
    its message stand inside the control of line 94, which is rendered
    under [v-if="forcedType === null"]: with a forced type, the empty
    string included, nothing of it is rendered. *)
Definition type_message (forcedType : option JS.str) (v : Vuelidate.field)
  : option Template.message :=
  match forcedType with
  | None =>
      Template.v_if_chain
        [ (Vuelidate.error v, Template.Error requiredField) ]
  | Some _ => None
  end.

(** The priority order each chain gives its errors. *)
Definition name_order : list (string * string) :=
  [ ("required", requiredField);
    ("mustHaveUniqueFieldName", fieldAlreadyExists);
    ("mustNotClashWithReservedName", nameNotAllowed);
    ("maxLength", nameTooLong) ].

Definition api_name_order : list (string * string) :=
  [ ("required", requiredField);
    ("mustHaveUniqueFieldAPIName", fieldAlreadyExists);
    ("mustUseValidAPINameCharacters", notValidFormat);
    ("maxLength", nameTooLong) ].

(** Modelled from the spec: the form mixin (core/mixins/form), which
    declares [submit], is not among the sources. Section 4.6: submit first
    touches every field; when the form is not valid the submission is
    aborted, otherwise the form emits its current values object, as a
    shallow copy. [None] is an aborted submission. *)
Definition submit (max : N) (reserved : list JS.str)
  : M vm (option (gmap string JS.str)) :=
  _ ← touch_all max reserved;
  bad ← invalid max reserved;
  vals ← gets (fun this => values (dat this));
  mret (if bad : bool then None else Some vals).

(** What the user does to a mounted field form. *)
Inductive event : Type :=
  | Input (key : string) (typed : JS.str)
  | Blur (key : string)
  | Submit.

(** A session: the values objects emitted so far, and the instance. *)
Definition step (max : N) (reserved : list JS.str)
    (st : list (gmap string JS.str) * vm) (e : event)
  : list (gmap string JS.str) * vm :=
  let (emitted, this) := st in
  match e with
  | Input key typed => (emitted, after (input key typed) this)
  | Blur key => (emitted, after (touch key) this)
  | Submit =>
      match submit max reserved this with
      | (Some vals, this') => (emitted ++ [vals], this')
      | (None, this') => (emitted, this')
      end
  end.

Definition session (max : N) (reserved : list JS.str) (es : list event)
    (this : vm) : list (gmap string JS.str) * vm :=
  fold_left (step max reserved) es ([], this).

End FieldForm.

(* ===================================================================== *)
(** ** core/mixins/superAdmin.js                                          *)
(* ===================================================================== *)

Module SuperAdmin.

(** [s.split(sep)] for a one-character separator: the pieces between the
    separators, in order; the empty string gives one empty piece. *)
Fixpoint split (sep : N) (s : JS.str) : list JS.str :=
  match s with
  | [] => [[]]
  | c :: r =>
      if N.eqb c sep then [] :: split sep r
      else match split sep r with
           | piece :: pieces => (c :: piece) :: pieces
           | [] => [[c]]
           end
  end.

(** [pieces.join(sep)], the inverse operation. *)
Fixpoint join (sep : N) (pieces : list JS.str) : JS.str :=
  match pieces with
  | [] => []
  | [piece] => piece
  | piece :: rest => piece ++ sep :: join sep rest
  end.

Definition comma : N := 44.
Definition at_sign : N := 64.

(** The property names every plain object inherits from
    [Object.prototype]; reading one of them from an object that has no own
    property of that name gives the inherited function or accessor value,
    which is truthy. *)
Definition inherited_names : list JS.str :=
  List.map JS.lit
    [ "constructor"; "hasOwnProperty"; "isPrototypeOf";
      "propertyIsEnumerable"; "toLocaleString"; "toString"; "valueOf";
      "__proto__"; "__defineGetter__"; "__defineSetter__";
      "__lookupGetter__"; "__lookupSetter__" ]%string.

Definition proto : JS.str := JS.lit "__proto__".

(** The object [superAdmins]: its own properties. Every value the mixin
    stores is [true]. *)
Abbreviation admins := (gmap JS.str bool).

(** [acc[item] = true] on a plain object. Assigning a primitive to
    [__proto__] goes to the inherited setter, which ignores it. *)
Definition assign_true (acc : admins) (item : JS.str) : admins :=
  if JS.str_eqb item proto then acc else <[ item := true ]> acc.

(** Vue marks an object stored in a data property with the own property
    [__ob__], its observer. *)
Definition observer : JS.str := JS.lit "__ob__".

(** What reading [obj[key]] gives: a stored boolean, the observer, an
    inherited member, or [undefined]. *)
Inductive read : Type :=
  | Own (b : bool)
  | Observer
  | Inherited
  | Absent.

Definition get (obj : admins) (key : JS.str) : read :=
  match obj !! key with
  | Some b => Own b
  | None =>
      if JS.str_eqb key observer then Observer
      else if bool_decide (key ∈ inherited_names) then Inherited
      else Absent
  end.

(** [data()] (lines 3-7). *)
Definition data : admins := ∅.

(** [created()] (lines 8-13), given [this.$env.SUPER_ADMINS]; [None] for
    the variable is [undefined], on which [.split] raises. *)
Definition created (SUPER_ADMINS : option JS.str) : option admins :=
  match SUPER_ADMINS with
  | None => None
  | Some s =>
      Some (fold_left assign_true (List.map JS.trim (split comma s)) ∅)
  end.

(** [user.email]: a string, or missing ([undefined] or [null]). *)
Inductive email : Type :=
  | NoEmail
  | Email (address : JS.str).

(** What [isSuperAdmin] returns: the falsy email itself, or what the
    lookup gave. *)
Inductive answer : Type :=
  | FalsyEmail (e : email)
  | Looked (r : read).

(** method [isSuperAdmin] (lines 15-17):
    [user.email && this.superAdmins[user.email]]. *)
Definition isSuperAdmin (superAdmins : admins) (user_email : email) : answer :=
  match user_email with
  | Email (c :: r) => Looked (get superAdmins (c :: r))
  | falsy => FalsyEmail falsy
  end.

(** The answer in a boolean context. *)
Definition truthy (a : answer) : bool :=
  match a with
  | Looked (Own b) => b
  | Looked Observer => true
  | Looked Inherited => true
  | _ => false
  end.

End SuperAdmin.


(* ===================================================================== *)
(** ** The tooltip directive (src/unnamed/part_000)                       *)
(* ===================================================================== *)

(** The directive's hooks and the two mouse handlers act on an element, the
    document body, the window's listeners and the timeout queue. Embedded
    are the elements that exist, the listeners that are registered and the
    timeouts that are pending; the pixel position [updatePositionEvent]
    writes and the console output are left out. *)
Module Tooltip.

(** Timer handles, DOM nodes and function objects, each known by an id. *)
Definition id : Type := positive.

(** What the directive is bound to, as far as the code distinguishes:
    [undefined], [null] or a string. *)
Inductive content : Type :=
  | Undefined
  | Null
  | Text (s : JS.str).

#[global] Instance content_eq_dec : EqDecision content.
Proof. solve_decision. Defined.

(** [!!v]: only a non-empty string is truthy. *)
Definition truthy (v : content) : bool :=
  match v with
  | Text (_ :: _) => true
  | _ => false
  end.

(** [binding.value]: a primitive, or an object [{ value, delay }] whose
    [delay] is a number or [undefined]. *)
Inductive binding : Type :=
  | Plain (value : content)
  | Options (value : content) (delay : option N).

(** The properties the directive keeps on the element, and the listeners
    registered on it. A property that is [null] or was never set is [None];
    [value] that was never set is [Undefined]. *)
Record element : Type := {
  value : content;
  delay : option N;
  tooltipElement : option id;
  tooltipContentElement : option id;
  timeOut : option id;
  updatePositionEvent : option id;
  tooltipMouseEnterEvent : option id;
  tooltipMoveLeaveEvent : option id;
  on_mouseenter : list id;
  on_mouseleave : list id;
}.

(** A pending [setTimeout] of the mouse-enter handler: its callback shows
    the text the handler read from [el.value] when it ran. *)
Record timeout : Type := {
  t_handle : id;
  t_due : N;
  t_text : JS.str;
}.

(** The page: the element, the tooltip elements that are children of
    [document.body] (first child first, each with the text of its content
    element), the window's scroll and resize listeners, the pending
    timeouts, the clock in milliseconds and the next unused id. *)
Record page : Type := {
  el : element;
  body : list (id * JS.str);
  on_scroll : list id;
  on_resize : list id;
  timers : list timeout;
  now : N;
  fresh : id;
}.

(** [addEventListener]: a listener that is already registered is not
    registered twice. *)
Definition add_listener (f : id) (l : list id) : list id :=
  if bool_decide (f ∈ l) then l else l ++ [f].

(** [removeEventListener]; with [undefined] for the listener nothing
    happens. *)
Definition remove_listener (f : option id) (l : list id) : list id :=
  match f with
  | Some f => List.filter (fun g => negb (Pos.eqb g f)) l
  | None => l
  end.

Definition add_listener_opt (f : option id) (l : list id) : list id :=
  match f with
  | Some f => add_listener f l
  | None => l
  end.

(** [parent.removeChild(node)] on the children of the body. *)
Definition remove_child (n : id) (children : list (id * JS.str))
  : list (id * JS.str) :=
  List.filter (fun c => negb (Pos.eqb (fst c) n)) children.

Definition attached (n : id) (children : list (id * JS.str)) : bool :=
  existsb (fun c => Pos.eqb (fst c) n) children.

(** [terminate(el)] (lines 70-81). *)
Definition terminate (p : page) : page :=
  let e := el p in
  {| el :=
       {| value := value e; delay := delay e;
          tooltipElement := None; tooltipContentElement := None;
          timeOut := timeOut e;
          updatePositionEvent := updatePositionEvent e;
          tooltipMouseEnterEvent := tooltipMouseEnterEvent e;
          tooltipMoveLeaveEvent := tooltipMoveLeaveEvent e;
          on_mouseenter :=
            remove_listener (tooltipMouseEnterEvent e) (on_mouseenter e);
          on_mouseleave :=
            remove_listener (tooltipMoveLeaveEvent e) (on_mouseleave e) |};
     body := match tooltipElement e with
             | Some n => remove_child n (body p)
             | None => body p
             end;
     on_scroll := remove_listener (updatePositionEvent e) (on_scroll p);
     on_resize := remove_listener (updatePositionEvent e) (on_resize p);
     timers := timers p; now := now p; fresh := fresh p |}.

(** [initialize(el)] (lines 10-65): three new function objects are stored
    on the element and the two mouse handlers are registered. *)
Definition initialize (p : page) : page :=
  let e := el p in
  let update_position := fresh p in
  let mouse_enter := Pos.succ update_position in
  let mouse_leave := Pos.succ mouse_enter in
  {| el :=
       {| value := value e; delay := delay e;
          tooltipElement := tooltipElement e;
          tooltipContentElement := tooltipContentElement e;
          timeOut := timeOut e;
          updatePositionEvent := Some update_position;
          tooltipMouseEnterEvent := Some mouse_enter;
          tooltipMoveLeaveEvent := Some mouse_leave;
          on_mouseenter := add_listener mouse_enter (on_mouseenter e);
          on_mouseleave := add_listener mouse_leave (on_mouseleave e) |};
     body := body p; on_scroll := on_scroll p; on_resize := on_resize p;
     timers := timers p; now := now p; fresh := Pos.succ mouse_leave |}.

(** The mouse-enter handler (lines 19-47). Every function object that
    [initialize] made for it runs this same code on the same element. *)
Definition mouse_enter (p : page) : page :=
  let p := match tooltipElement (el p) with
           | Some _ => terminate p
           | None => p
           end in
  let e := el p in
  match value e with
  | Text (c :: r) =>
      {| el :=
           {| value := value e; delay := delay e;
              tooltipElement := tooltipElement e;
              tooltipContentElement := tooltipContentElement e;
              timeOut := Some (fresh p);
              updatePositionEvent := updatePositionEvent e;
              tooltipMouseEnterEvent := tooltipMouseEnterEvent e;
              tooltipMoveLeaveEvent := tooltipMoveLeaveEvent e;
              on_mouseenter := on_mouseenter e;
              on_mouseleave := on_mouseleave e |};
         body := body p; on_scroll := on_scroll p; on_resize := on_resize p;
         timers := timers p ++
           [{| t_handle := fresh p;
               t_due := (now p + default 0%N (delay e))%N;
               t_text := c :: r |}];
         now := now p; fresh := Pos.succ (fresh p) |}
  | _ => p
  end.

(** The timeout's callback (lines 26-45): the tooltip element is created
    with its content element and put first in the body, and the position
    function is registered on the window. [None] when
    [el.updatePositionEvent] is not a function, the call of which raises. *)
Definition show (text : JS.str) (p : page) : option page :=
  let e := el p in
  match updatePositionEvent e with
  | None => None
  | Some update_position =>
      Some
        {| el :=
             {| value := value e; delay := delay e;
                tooltipElement := Some (fresh p);
                tooltipContentElement := Some (Pos.succ (fresh p));
                timeOut := None;
                updatePositionEvent := updatePositionEvent e;
                tooltipMouseEnterEvent := tooltipMouseEnterEvent e;
                tooltipMoveLeaveEvent := tooltipMoveLeaveEvent e;
                on_mouseenter := on_mouseenter e;
                on_mouseleave := on_mouseleave e |};
           body := (fresh p, text) :: body p;
           on_scroll := add_listener update_position (on_scroll p);
           on_resize := add_listener update_position (on_resize p);
           timers := timers p; now := now p;
           fresh := Pos.succ (Pos.succ (fresh p)) |}
  end.

(** The mouse-leave handler (lines 48-62). [None] when the tooltip element
    has no parent: [el.tooltipElement.parentNode.removeChild] is called
    without the check [terminate] makes, and raises on [null]. *)
Definition mouse_leave (p : page) : option page :=
  let e := el p in
  let pending :=
    match timeOut e with
    | Some h => List.filter (fun t => negb (Pos.eqb (t_handle t) h)) (timers p)
    | None => timers p
    end in
  let after_element (children : list (id * JS.str)) :=
    {| el :=
         {| value := value e; delay := delay e;
            tooltipElement := None;
            tooltipContentElement :=
              match tooltipElement e with
              | Some _ => None
              | None => tooltipContentElement e
              end;
            timeOut := None;
            updatePositionEvent := updatePositionEvent e;
            tooltipMouseEnterEvent := tooltipMouseEnterEvent e;
            tooltipMoveLeaveEvent := tooltipMoveLeaveEvent e;
            on_mouseenter := on_mouseenter e;
            on_mouseleave := on_mouseleave e |};
       body := children;
       on_scroll := remove_listener (updatePositionEvent e) (on_scroll p);
       on_resize := remove_listener (updatePositionEvent e) (on_resize p);
       timers := pending; now := now p; fresh := fresh p |} in
  match tooltipElement e with
  | Some n =>
      if attached n (body p)
      then Some (after_element (remove_child n (body p)))
      else None
  | None => Some (after_element (body p))
  end.

(** An event is delivered to the listeners that were registered when it
    was dispatched, in order, skipping those removed in the meantime. *)
Fixpoint dispatch (handler : page -> option page)
    (registered : page -> list id) (listeners : list id) (p : page)
  : option page :=
  match listeners with
  | [] => Some p
  | f :: rest =>
      if bool_decide (f ∈ registered p)
      then p' ← handler p; dispatch handler registered rest p'
      else dispatch handler registered rest p
  end.

Definition set_value (v : content) (d : option N) (p : page) : page :=
  let e := el p in
  {| el :=
       {| value := v; delay := d;
          tooltipElement := tooltipElement e;
          tooltipContentElement := tooltipContentElement e;
          timeOut := timeOut e;
          updatePositionEvent := updatePositionEvent e;
          tooltipMouseEnterEvent := tooltipMouseEnterEvent e;
          tooltipMoveLeaveEvent := tooltipMoveLeaveEvent e;
          on_mouseenter := on_mouseenter e;
          on_mouseleave := on_mouseleave e |};
     body := body p; on_scroll := on_scroll p; on_resize := on_resize p;
     timers := timers p; now := now p; fresh := fresh p |}.

(** The end of [update] (lines 104-108). *)
Definition initialize_or_terminate (p : page) : page :=
  if truthy (value (el p))
     && match tooltipElement (el p) with None => true | Some _ => false end
  then initialize p
  else if negb (truthy (value (el p))) then terminate p
  else p.

(** [update(el, binding)] (lines 88-109). *)
Definition update (b : binding) (p : page) : page :=
  match b with
  | Options v d =>
      if bool_decide (v = value (el p)) && bool_decide (d = delay (el p))
      then p
      else initialize_or_terminate (set_value v (Some (default 0%N d)) p)
  | Plain v =>
      if bool_decide (v = value (el p))
      then p
      else initialize_or_terminate (set_value v (delay (el p)) p)
  end.

(** [bind(el, binding)] (lines 82-87). *)
Definition bind (b : binding) (p : page) : page :=
  let e := el p in
  update b
    {| el :=
         {| value := value e; delay := delay e;
            tooltipElement := None; tooltipContentElement := None;
            timeOut := timeOut e;
            updatePositionEvent := updatePositionEvent e;
            tooltipMouseEnterEvent := tooltipMouseEnterEvent e;
            tooltipMoveLeaveEvent := tooltipMoveLeaveEvent e;
            on_mouseenter := on_mouseenter e;
            on_mouseleave := on_mouseleave e |};
       body := body p; on_scroll := on_scroll p; on_resize := on_resize p;
       timers := timers p; now := now p; fresh := fresh p |}.

(** [unbind(el, binding)] (lines 110-113). *)
Definition unbind (p : page) : page := terminate p.

(** Timeouts run in the order of their due times, and in the order they
    were set when due together. *)
Fixpoint insert_by_due (t : timeout) (l : list timeout) : list timeout :=
  match l with
  | [] => [t]
  | u :: l' =>
      if N.leb (t_due t) (t_due u) then t :: u :: l'
      else u :: insert_by_due t l'
  end.

Definition by_due (l : list timeout) : list timeout :=
  fold_right insert_by_due [] l.

Fixpoint run_callbacks (texts : list JS.str) (p : page) : option page :=
  match texts with
  | [] => Some p
  | text :: rest => p' ← show text p; run_callbacks rest p'
  end.

(** One millisecond passes: the timeouts that are due leave the queue and
    their callbacks run. *)
Definition tick (p : page) : option page :=
  let time := (now p + 1)%N in
  let due := List.filter (fun t => N.leb (t_due t) time) (timers p) in
  let later := List.filter (fun t => negb (N.leb (t_due t) time)) (timers p) in
  run_callbacks (List.map t_text (by_due due))
    {| el := el p; body := body p;
       on_scroll := on_scroll p; on_resize := on_resize p;
       timers := later; now := time; fresh := fresh p |}.

(** What happens to a page. *)
Inductive event : Type :=
  | Bind (b : binding)
  | Update (b : binding)
  | Unbind
  | MouseEnter
  | MouseLeave
  | Tick.

Definition step (p : page) (e : event) : option page :=
  match e with
  | Bind b => Some (bind b p)
  | Update b => Some (update b p)
  | Unbind => Some (unbind p)
  | MouseEnter =>
      dispatch (fun q => Some (mouse_enter q)) (fun q => on_mouseenter (el q))
        (on_mouseenter (el p)) p
  | MouseLeave =>
      dispatch mouse_leave (fun q => on_mouseleave (el q))
        (on_mouseleave (el p)) p
  | Tick => tick p
  end.

Fixpoint run (es : list event) (p : page) : option page :=
  match es with
  | [] => Some p
  | e :: es' => p' ← step p e; run es' p'
  end.

Definition wait (ms : nat) : list event := repeat Tick ms.

(** A page with an element the directive has not touched yet. *)
Definition blank : page :=
  {| el := {| value := Undefined; delay := None;
              tooltipElement := None; tooltipContentElement := None;
              timeOut := None; updatePositionEvent := None;
              tooltipMouseEnterEvent := None; tooltipMoveLeaveEvent := None;
              on_mouseenter := []; on_mouseleave := [] |};
     body := []; on_scroll := []; on_resize := [];
     timers := []; now := 0%N; fresh := 1%positive |}.

(** The page [ms] milliseconds later, if nothing else happens. *)
Definition advance (ms : N) (p : page) : page :=
  {| el := el p; body := body p;
     on_scroll := on_scroll p; on_resize := on_resize p;
     timers := timers p; now := (now p + ms)%N; fresh := fresh p |}.

Definition set_timers (ts : list timeout) (p : page) : page :=
  {| el := el p; body := body p;
     on_scroll := on_scroll p; on_resize := on_resize p;
     timers := ts; now := now p; fresh := fresh p |}.

(** A bound element at rest: it holds a non-empty text and a delay, its
    three functions and two listeners come from one [initialize], no
    tooltip is shown and no timeout is pending. *)
Definition at_rest (text : JS.str) (d : option N)
    (update_position mouse_enter mouse_leave : id)
    (children : list (id * JS.str)) (time : N) (next : id) : page :=
  {| el := {| value := Text text; delay := d;
              tooltipElement := None; tooltipContentElement := None;
              timeOut := None;
              updatePositionEvent := Some update_position;
              tooltipMouseEnterEvent := Some mouse_enter;
              tooltipMoveLeaveEvent := Some mouse_leave;
              on_mouseenter := [mouse_enter];
              on_mouseleave := [mouse_leave] |};
     body := children; on_scroll := []; on_resize := [];
     timers := []; now := time; fresh := next |}.

(** The same element between mouse-enter and the end of the delay: one
    timeout, whose handle the element holds, is pending. *)
Definition waiting (text : JS.str) (d : option N)
    (update_position mouse_enter mouse_leave : id)
    (children : list (id * JS.str)) (time : N) (next : id)
    (h : id) (due : N) : page :=
  {| el := {| value := Text text; delay := d;
              tooltipElement := None; tooltipContentElement := None;
              timeOut := Some h;
              updatePositionEvent := Some update_position;
              tooltipMouseEnterEvent := Some mouse_enter;
              tooltipMoveLeaveEvent := Some mouse_leave;
              on_mouseenter := [mouse_enter];
              on_mouseleave := [mouse_leave] |};
     body := children; on_scroll := []; on_resize := [];
     timers := [{| t_handle := h; t_due := due; t_text := text |}];
     now := time; fresh := next |}.

(** The same element with its tooltip shown: the tooltip element [n] is
    the first child of the body and the position function listens to the
    window. *)
Definition showing (text : JS.str) (d : option N)
    (update_position mouse_enter mouse_leave : id)
    (children : list (id * JS.str)) (time : N) (next : id) (n : id) : page :=
  {| el := {| value := Text text; delay := d;
              tooltipElement := Some n;
              tooltipContentElement := Some (Pos.succ n);
              timeOut := None;
              updatePositionEvent := Some update_position;
              tooltipMouseEnterEvent := Some mouse_enter;
              tooltipMoveLeaveEvent := Some mouse_leave;
              on_mouseenter := [mouse_enter];
              on_mouseleave := [mouse_leave] |};
     body := (n, text) :: children;
     on_scroll := [update_position]; on_resize := [update_position];
     timers := []; now := time; fresh := next |}.

(** What the handlers rely on: a tooltip element the element holds is a
    child of the body, and the position function exists whenever a timeout
    is pending or a mouse-enter listener is registered. *)
Definition consistent (p : page) : Prop :=
  (forall n, tooltipElement (el p) = Some n -> attached n (body p) = true)
  /\ (timers p <> [] \/ on_mouseenter (el p) <> [] ->
      updatePositionEvent (el p) <> None).

(** Every node in the body is older than the next id. *)
Definition older (children : list (id * JS.str)) (next : id) : Prop :=
  Forall (fun c => (fst c < next)%positive) children.

(** What of a page can be seen: everything but the clock and the next id. *)
Definition view (p : page)
  : element * list (id * JS.str) * list id * list id * list timeout :=
  (el p, body p, on_scroll p, on_resize p, timers p).

(** Every registered mouse listener is older than the next id. *)
Definition listeners_older (p : page) : Prop :=
  Forall (fun f => (f < fresh p)%positive) (on_mouseenter (el p))
  /\ Forall (fun f => (f < fresh p)%positive) (on_mouseleave (el p)).

(** The state re-rendering keeps: the element holds the text, no tooltip
    is shown, and the stored delay is a number. *)
Definition holds (text : JS.str) (d : N) (p : page) : Prop :=
  value (el p) = Text text /\ delay (el p) = Some d
  /\ tooltipElement (el p) = None /\ listeners_older p.

End Tooltip.


(* ===================================================================== *)
(** ** Sessions at the API-name input                                     *)
(* ===================================================================== *)

(** A browser sends [focus] and [blur] to an input in turns. One visit of
    the input: it is focused, stays so for [fst visit] milliseconds, is
    left, and [snd visit] milliseconds pass. *)
Module ApiNameSession.
Import ApiNameWarning.





(** The api_name control of a mounted table form (TableForm.vue lines
    28-68): the component instance that the template and the validators
    read, and the instance in its window that [apiNameFocus] and
    [apiNameUnfocus] write. The flag [api_name_focused] the template reads
    is the one of [warning]. *)
Record mounted : Type := {
  form : TableForm.vm;
  warning : world;
}.





(** What the slot under the input renders (lines 40-66): the chain of
    [TableForm.api_name_message] on [$v.values.api_name] and the flag. *)
Definition slot (max : N) (m : mounted) : option Template.message :=
  match result (TableForm.v_field max "api_name") (form m) with
  | Some v => TableForm.api_name_message v (visible (warning m))
  | None => None
  end.







End ApiNameSession.

(* ===================================================================== *)
(** ** Sessions at the field form                                         *)
(* ===================================================================== *)

(** Every field of the rule map has a value. *)
Definition ruled_fields_have_values (this : FieldForm.vm) : Prop :=
  is_Some (FieldForm.model this !! "name")
  /\ is_Some (FieldForm.model this !! "type")
  /\ (FieldForm.creating (FieldForm.prp this) = false ->
      is_Some (FieldForm.model this !! "api_name")).

(* ===================================================================== *)
(** * Properties                                                          *)
(* ===================================================================== *)

(** ** Computations *)

Lemma readonly_ret {S A} (a : A) : readonly (mret a : M S A).
Proof. intros s. reflexivity. Qed.

Lemma readonly_gets {S A} (f : S -> A) : readonly (gets f).
Proof. intros s. reflexivity. Qed.

Lemma readonly_bind {S A B} (m : M S A) (k : A -> M S B) :
  readonly m -> (forall a, readonly (k a)) -> readonly (m ≫= k).
Proof.
  intros Hm Hk s. unfold after, mbind, M_bind.
  specialize (Hm s). unfold after in Hm.
  destruct (m s) as [a s'] eqn:E. simpl in Hm. subst s'.
  apply Hk.
Qed.

Lemma result_bind {S A B} (m : M S A) (k : A -> M S B) (s : S) :
  readonly m -> result (m ≫= k) s = result (k (result m s)) s.
Proof.
  intros Hm. unfold result, mbind, M_bind.
  specialize (Hm s). unfold after in Hm.
  destruct (m s) as [a s'] eqn:E. simpl in *. now subst s'.
Qed.

(** A read-only computation is its result paired with the untouched state. *)
Lemma readonly_run {S A} (m : M S A) (s : S) :
  readonly m -> m s = (result m s, s).
Proof.
  intros Hm. specialize (Hm s). unfold after, result in *.
  destruct (m s); simpl in *; congruence.
Qed.

(** ** Running the rules of a field *)

Section RulesFacts.
Context {S : Type}.

Lemma run_rules_readonly (rs : Vuelidate.rules S) (value : JS.str) :
  Vuelidate.rules_readonly rs -> readonly (Vuelidate.run_rules rs value).
Proof.
  induction 1 as [|[key v] rs' Hv Hrs IH]; simpl.
  - apply readonly_ret.
  - apply readonly_bind; [apply Hv|]. intros b.
    apply readonly_bind; [apply IH|]. intros bs. apply readonly_ret.
Qed.

(** The results are one boolean per rule, under the rule's key and in the
    order of the rules. *)
Lemma run_rules_result (rs : Vuelidate.rules S) (value : JS.str) (s : S) :
  Vuelidate.rules_readonly rs ->
  result (Vuelidate.run_rules rs value) s
  = List.map (fun kv => (fst kv, result (snd kv value) s)) rs.
Proof.
  induction 1 as [|[key v] rs' Hv Hrs IH]; simpl; [reflexivity|].
  rewrite result_bind by apply Hv.
  rewrite result_bind by (apply run_rules_readonly; assumption).
  unfold result at 1. simpl. now rewrite IH.
Qed.

Lemma required_readonly (value : JS.str) :
  readonly (Vuelidate.required value : M S bool).
Proof. apply readonly_ret. Qed.

Lemma maxLength_readonly (max : N) (value : JS.str) :
  readonly (Vuelidate.maxLength max value : M S bool).
Proof. apply readonly_ret. Qed.

Variable model : S -> gmap string JS.str.

Lemma run_field_readonly (key : string) (rs : Vuelidate.rules S) :
  Vuelidate.rules_readonly rs -> readonly (Vuelidate.run_field model key rs).
Proof.
  intros Hrs. unfold Vuelidate.run_field.
  apply readonly_bind; [apply readonly_gets|]. intros vals.
  destruct (vals !! key) as [value|]; [|apply readonly_ret].
  apply readonly_bind; [now apply run_rules_readonly|].
  intros bs. apply readonly_ret.
Qed.

Lemma run_field_result (key : string) (rs : Vuelidate.rules S) (s : S) :
  Vuelidate.rules_readonly rs ->
  result (Vuelidate.run_field model key rs) s
  = match model s !! key with
    | Some value =>
        Some (List.map (fun kv => (fst kv, result (snd kv value) s)) rs)
    | None => None
    end.
Proof.
  intros Hrs. unfold Vuelidate.run_field.
  rewrite result_bind by apply readonly_gets.
  change (result (gets model) s) with (model s).
  destruct (model s !! key) as [value|]; [|reflexivity].
  rewrite result_bind by now apply run_rules_readonly.
  rewrite run_rules_result by assumption. reflexivity.
Qed.

Lemma run_fields_readonly (m : Vuelidate.rulemap S) :
  Vuelidate.rulemap_readonly m -> readonly (Vuelidate.run_fields model m).
Proof.
  induction 1 as [|[key rs] m' Hrs Hm IH]; simpl.
  - apply readonly_ret.
  - apply readonly_bind; [now apply run_field_readonly|]. intros r.
    apply readonly_bind; [apply IH|]. intros rest. apply readonly_ret.
Qed.

(** The outcome lists the fields of the rule map in order, each with the
    results of its rules on the field's current value. *)
Lemma run_fields_result (m : Vuelidate.rulemap S) (s : S) :
  Vuelidate.rulemap_readonly m ->
  result (Vuelidate.run_fields model m) s
  = List.map (fun fr =>
      (fst fr,
       match model s !! fst fr with
       | Some value =>
           Some (List.map (fun kv => (fst kv, result (snd kv value) s)) (snd fr))
       | None => None
       end)) m.
Proof.
  induction 1 as [|[key rs] m' Hrs Hm IH]; simpl; [reflexivity|].
  rewrite result_bind by now apply run_field_readonly.
  rewrite result_bind by now apply run_fields_readonly.
  unfold result at 1. simpl.
  rewrite run_field_result by assumption. now rewrite IH.
Qed.

End RulesFacts.

(** Proves that a computation built from reads is read-only. *)
Ltac solve_readonly :=
  repeat first
    [ apply readonly_ret
    | apply readonly_gets
    | apply required_readonly
    | apply maxLength_readonly
    | apply readonly_bind; [|intros ?]
    | match goal with
      | |- readonly (match ?x with _ => _ end) => destruct x
      | |- readonly (if ?x then _ else _) => destruct x
      end ].

(** ** The field form: its methods only read the instance *)

Section FieldFormFacts.
Variable max : N.
Variable reserved : list JS.str.

Lemma existingFieldId_readonly : readonly FieldForm.existingFieldId.
Proof. unfold FieldForm.existingFieldId. solve_readonly. Qed.

Lemma fields_but_existing_readonly : readonly FieldForm.fields_but_existing.
Proof.
  unfold FieldForm.fields_but_existing.
  apply readonly_bind; [apply readonly_gets|]. intros fs.
  apply readonly_bind; [apply existingFieldId_readonly|]. intros id.
  apply readonly_ret.
Qed.

Lemma mustHaveUniqueFieldName_readonly (param : JS.str) :
  readonly (FieldForm.mustHaveUniqueFieldName param).
Proof.
  unfold FieldForm.mustHaveUniqueFieldName.
  apply readonly_bind; [apply fields_but_existing_readonly|].
  intros fs. apply readonly_ret.
Qed.

Lemma mustHaveUniqueFieldAPIName_readonly (param : JS.str) :
  readonly (FieldForm.mustHaveUniqueFieldAPIName param).
Proof.
  unfold FieldForm.mustHaveUniqueFieldAPIName.
  apply readonly_bind; [apply fields_but_existing_readonly|].
  intros fs. apply readonly_ret.
Qed.

Lemma FieldForm_mustUseValidAPINameCharacters_readonly (param : JS.str) :
  readonly (FieldForm.mustUseValidAPINameCharacters param).
Proof. apply readonly_ret. Qed.

Lemma mustNotClashWithReservedName_readonly (param : JS.str) :
  readonly (FieldForm.mustNotClashWithReservedName reserved param).
Proof. apply readonly_ret. Qed.

Lemma FieldForm_validations_readonly :
  readonly (FieldForm.validations max reserved).
Proof. unfold FieldForm.validations. solve_readonly. Qed.

(** The rule map by mode. *)
Lemma FieldForm_validations_result (this : FieldForm.vm) :
  result (FieldForm.validations max reserved) this
  = [ ("name",
       [ ("required", Vuelidate.required);
         ("maxLength", Vuelidate.maxLength max);
         ("mustHaveUniqueFieldName", FieldForm.mustHaveUniqueFieldName);
         ("mustNotClashWithReservedName",
          FieldForm.mustNotClashWithReservedName reserved) ]);
      ("type", [ ("required", Vuelidate.required) ]) ]
    ++ (if FieldForm.creating (FieldForm.prp this) then []
        else [ ("api_name", FieldForm.api_name_rules max) ]).
Proof.
  unfold result, FieldForm.validations. simpl.
  destruct (FieldForm.creating (FieldForm.prp this)); reflexivity.
Qed.

Lemma FieldForm_rulemap_readonly (this : FieldForm.vm) :
  Vuelidate.rulemap_readonly (result (FieldForm.validations max reserved) this).
Proof.
  rewrite FieldForm_validations_result.
  destruct (FieldForm.creating (FieldForm.prp this)); simpl;
    repeat (constructor; simpl); intros value;
    first [ apply required_readonly | apply maxLength_readonly
          | apply mustHaveUniqueFieldName_readonly
          | apply mustHaveUniqueFieldAPIName_readonly
          | apply FieldForm_mustUseValidAPINameCharacters_readonly
          | apply mustNotClashWithReservedName_readonly ].
Qed.

Lemma FieldForm_evaluate_readonly :
  readonly (FieldForm.evaluate max reserved).
Proof.
  intros this. unfold FieldForm.evaluate, after, mbind, M_bind.
  rewrite (readonly_run _ this FieldForm_validations_readonly).
  apply run_fields_readonly, FieldForm_rulemap_readonly.
Qed.

Lemma FieldForm_evaluate_result (this : FieldForm.vm) :
  result (FieldForm.evaluate max reserved) this
  = result (Vuelidate.run_fields FieldForm.model
              (result (FieldForm.validations max reserved) this)) this.
Proof.
  unfold FieldForm.evaluate.
  now rewrite result_bind by apply FieldForm_validations_readonly.
Qed.

Lemma FieldForm_invalid_readonly : readonly (FieldForm.invalid max reserved).
Proof.
  unfold FieldForm.invalid.
  apply readonly_bind; [apply FieldForm_evaluate_readonly|].
  intros rs. apply readonly_ret.
Qed.

Lemma FieldForm_invalid_result (this : FieldForm.vm) :
  result (FieldForm.invalid max reserved) this
  = Vuelidate.some_invalid (result (FieldForm.evaluate max reserved) this).
Proof.
  unfold FieldForm.invalid.
  now rewrite result_bind by apply FieldForm_evaluate_readonly.
Qed.

(** Two instances that differ in their dirty flags only evaluate alike. *)
Lemma FieldForm_evaluate_set_dirty (d : gset string) (this : FieldForm.vm) :
  result (FieldForm.evaluate max reserved) (FieldForm.set_dirty d this)
  = result (FieldForm.evaluate max reserved) this.
Proof.
  rewrite !FieldForm_evaluate_result.
  rewrite !run_fields_result by apply FieldForm_rulemap_readonly.
  rewrite !FieldForm_validations_result.
  change (FieldForm.prp (FieldForm.set_dirty d this)) with (FieldForm.prp this).
  destruct (FieldForm.creating (FieldForm.prp this)); reflexivity.
Qed.

End FieldFormFacts.

(** ** JavaScript strings and values *)

Lemma str_eqb_eq (a b : JS.str) : JS.str_eqb a b = true <-> a = b.
Proof. unfold JS.str_eqb. apply bool_decide_eq_true. Qed.

Lemma strict_eq_eq (a b : JS.value) : JS.strict_eq a b = true <-> a = b.
Proof.
  destruct a, b; simpl; split; intros H;
    try discriminate; try reflexivity.
  - apply Z.eqb_eq in H. now subst.
  - inversion H. apply Z.eqb_refl.
  - apply str_eqb_eq in H. now subst.
  - inversion H. now apply str_eqb_eq.
Qed.

Lemma strict_eq_neq (a b : JS.value) : JS.strict_eq a b = false <-> a <> b.
Proof.
  rewrite <- strict_eq_eq. destruct (JS.strict_eq a b); split; intros H;
    try discriminate; try reflexivity; try congruence.
Qed.

Lemma includes_In (x : JS.value) (l : list JS.value) :
  JS.includes x l = true <-> In x l.
Proof.
  unfold JS.includes. rewrite existsb_exists. split.
  - intros (y & Hy & E). apply strict_eq_eq in E. now subst.
  - intros H. exists x. split; [assumption|]. now apply strict_eq_eq.
Qed.

(** [s.slice(0)] is the whole string, not its first character. *)
Lemma slice_0 (s : JS.str) : JS.slice 0 s = s.
Proof.
  unfold JS.slice. simpl.
  replace (Z.min 0 (Z.of_nat (List.length s))) with 0%Z by lia.
  reflexivity.
Qed.

(** [s.slice(-1)] is the last character, or empty on the empty string. *)
Lemma slice_last (s : JS.str) :
  JS.slice (-1) s = match rev s with
                    | [] => []
                    | c :: _ => [c]
                    end.
Proof.
  destruct s as [|c s] using rev_ind; [reflexivity|].
  rewrite rev_app_distr. simpl. unfold JS.slice. simpl.
  rewrite List.length_app. simpl.
  replace (Z.to_nat (Z.max (Z.of_nat (List.length s + 1) + -1) 0))
    with (List.length s) by lia.
  rewrite List.skipn_app, List.skipn_all, Nat.sub_diag. reflexivity.
Qed.

Lemma slice_last_underscore (s : JS.str) :
  JS.str_eqb (JS.slice (-1) s) JS.underscore
  = IdentifierRules.ends_with_underscore s.
Proof.
  rewrite slice_last. unfold IdentifierRules.ends_with_underscore.
  destruct (rev s) as [|c r]; [reflexivity|]. simpl.
  unfold JS.str_eqb, JS.underscore.
  destruct (N.eqb_spec c 95) as [->|Hc].
  - now apply bool_decide_eq_true.
  - apply bool_decide_eq_false. congruence.
Qed.

Lemma method_format_test (p : JS.str) :
  JS.re_api_name_chars_test p
  && negb (JS.str_eqb (JS.slice 0 p) JS.underscore)
  && negb (JS.str_eqb (JS.slice (-1) p) JS.underscore)
  && negb (JS.re_double_underscore_test p)
  = IdentifierRules.format_test p.
Proof.
  unfold IdentifierRules.format_test. rewrite slice_0, slice_last_underscore.
  destruct (JS.str_eqb p JS.underscore) eqn:E; simpl.
  - apply str_eqb_eq in E. subst p. reflexivity.
  - now rewrite andb_true_r.
Qed.

Lemma TableForm_format_result (s : JS.str) (this : TableForm.vm) :
  result (TableForm.mustUseValidAPINameCharacters s) this
  = IdentifierRules.format_test (JS.trim s).
Proof. apply method_format_test. Qed.

Lemma FieldForm_format_result (s : JS.str) (this : FieldForm.vm) :
  result (FieldForm.mustUseValidAPINameCharacters s) this
  = IdentifierRules.format_test (JS.trim s).
Proof. apply method_format_test. Qed.

(** C1. The format check of both forms passes exactly when the trimmed
    string matches [^[a-z0-9_]+$], does not end with an underscore and has
    no double underscore: it agrees with the specified rule on every string
    that does not start with an underscore, and differs from it on those
    that do. ["my__id"] and ["id_"] fail and ["my_id"] passes, as specified,
    but ["_id"] passes where the specified rule rejects it. *)
Theorem mustUseValidAPINameCharacters_leading_underscore :
  (forall (s : JS.str) (this : TableForm.vm),
      IdentifierRules.isValidApiNameFormat s
      = result (TableForm.mustUseValidAPINameCharacters s) this
        && negb (IdentifierRules.starts_with_underscore (JS.trim s))) /\
  (forall (s : JS.str) (this : FieldForm.vm),
      IdentifierRules.isValidApiNameFormat s
      = result (FieldForm.mustUseValidAPINameCharacters s) this
        && negb (IdentifierRules.starts_with_underscore (JS.trim s))) /\
  (forall this, result (TableForm.mustUseValidAPINameCharacters (JS.lit "_id")) this = true) /\
  (forall this, result (FieldForm.mustUseValidAPINameCharacters (JS.lit "_id")) this = true) /\
  IdentifierRules.isValidApiNameFormat (JS.lit "_id") = false /\
  (forall this, result (TableForm.mustUseValidAPINameCharacters (JS.lit "my__id")) this = false) /\
  (forall this, result (TableForm.mustUseValidAPINameCharacters (JS.lit "id_")) this = false) /\
  (forall this, result (TableForm.mustUseValidAPINameCharacters (JS.lit "my_id")) this = true).
Proof.
  assert (Hgap : forall s,
             IdentifierRules.isValidApiNameFormat s
             = IdentifierRules.format_test (JS.trim s)
               && negb (IdentifierRules.starts_with_underscore (JS.trim s))).
  { intros s. unfold IdentifierRules.isValidApiNameFormat, IdentifierRules.format_test.
    destruct (JS.re_api_name_chars_test (JS.trim s)),
      (IdentifierRules.starts_with_underscore (JS.trim s)),
      (IdentifierRules.ends_with_underscore (JS.trim s)),
      (JS.re_double_underscore_test (JS.trim s)); reflexivity. }
  repeat apply conj.
  - intros s this. now rewrite TableForm_format_result.
  - intros s this. now rewrite FieldForm_format_result.
  - intros this. now rewrite TableForm_format_result.
  - intros this. now rewrite FieldForm_format_result.
  - reflexivity.
  - intros this. now rewrite TableForm_format_result.
  - intros this. now rewrite TableForm_format_result.
  - intros this. now rewrite TableForm_format_result.
Qed.

(** ** The field form: uniqueness among the other fields *)

Lemma prop_insert (o : Form.obj) (key : string) (v : JS.value) :
  Form.prop (<[ key := v ]> o) key = v.
Proof. unfold Form.prop. now rewrite lookup_insert_eq. Qed.

(** The fields a candidate is compared with: all of them when no entity
    is being edited ([existingFieldId] is [null]), otherwise those whose id
    is not the edited entity's. *)
Lemma In_fields_but_existing (this : FieldForm.vm) (f : Form.obj) :
  In f (result FieldForm.fields_but_existing this)
  <-> In f (FieldForm.fields this)
      /\ (result FieldForm.existingFieldId this = JS.VNull
          \/ Form.prop f "id" <> result FieldForm.existingFieldId this).
Proof.
  unfold FieldForm.fields_but_existing.
  rewrite result_bind by apply readonly_gets.
  rewrite result_bind by apply existingFieldId_readonly.
  change (result (gets FieldForm.fields) this) with (FieldForm.fields this).
  set (id := result FieldForm.existingFieldId this).
  unfold result at 1. simpl.
  destruct (JS.strict_eq id JS.VNull) eqn:E; simpl.
  - apply strict_eq_eq in E. tauto.
  - apply strict_eq_neq in E. rewrite List.filter_In, negb_true_iff, strict_eq_neq.
    tauto.
Qed.

Lemma unique_check_fails_iff (this : FieldForm.vm) (key : string) (s : JS.str) :
  negb (JS.includes (JS.VString (JS.trim s))
          (List.map (fun f => Form.prop f key)
             (result FieldForm.fields_but_existing this))) = false
  <-> exists f, In f (FieldForm.fields this)
        /\ (result FieldForm.existingFieldId this = JS.VNull
            \/ Form.prop f "id" <> result FieldForm.existingFieldId this)
        /\ Form.prop f key = JS.VString (JS.trim s).
Proof.
  rewrite negb_false_iff, includes_In, List.in_map_iff. split.
  - intros (f & Hf & Hin). apply In_fields_but_existing in Hin.
    exists f. tauto.
  - intros (f & Hin & Hid & Hf). exists f. split; [assumption|].
    apply In_fields_but_existing. tauto.
Qed.

(** C6. Each uniqueness check fails exactly when the trimmed candidate is,
    as a string and letter for letter, the name (api_name) of one of the
    fields that are left after the field being edited has been removed by
    its id. The edited field itself therefore never conflicts: with or
    without it in the list the check gives the same answer. ["Status"]
    passes beside an existing ["status"], which itself fails. *)
Theorem unique_field_checks_compare_trimmed_value_with_other_fields :
  (forall (this : FieldForm.vm) (s : JS.str),
      result (FieldForm.mustHaveUniqueFieldName s) this = false
      <-> exists f, In f (FieldForm.fields this)
            /\ (result FieldForm.existingFieldId this = JS.VNull
                \/ Form.prop f "id" <> result FieldForm.existingFieldId this)
            /\ Form.prop f "name" = JS.VString (JS.trim s)) /\
  (forall (this : FieldForm.vm) (s : JS.str),
      result (FieldForm.mustHaveUniqueFieldAPIName s) this = false
      <-> exists f, In f (FieldForm.fields this)
            /\ (result FieldForm.existingFieldId this = JS.VNull
                \/ Form.prop f "id" <> result FieldForm.existingFieldId this)
            /\ Form.prop f "api_name" = JS.VString (JS.trim s)) /\
  (forall (this : FieldForm.vm) (id : Z) (edited defaults : Form.obj)
          (others : list Form.obj) (s : JS.str),
      let editing fs :=
        FieldForm.set_fields fs
          (FieldForm.set_defaultValues
             (Some (<[ "id" := JS.VNumber id ]> defaults)) this) in
      let self := <[ "id" := JS.VNumber id ]> edited in
      result (FieldForm.mustHaveUniqueFieldName s) (editing (self :: others))
      = result (FieldForm.mustHaveUniqueFieldName s) (editing others)
      /\ result (FieldForm.mustHaveUniqueFieldAPIName s) (editing (self :: others))
         = result (FieldForm.mustHaveUniqueFieldAPIName s) (editing others)) /\
  (let existing : Form.obj :=
     {[ "id" := JS.VNumber 7; "name" := JS.VString (JS.lit "status");
        "api_name" := JS.VString (JS.lit "status") ]} in
   let this :=
     FieldForm.create
       {| FieldForm.table := ∅; FieldForm.primary := false;
          FieldForm.forcedType := None; FieldForm.creating := true;
          FieldForm.defaultValues := Some ∅ |} [existing] in
   result (FieldForm.mustHaveUniqueFieldName (JS.lit "Status")) this = true
   /\ result (FieldForm.mustHaveUniqueFieldName (JS.lit " status ")) this = false).
Proof.
  repeat apply conj.
  - intros this s. unfold FieldForm.mustHaveUniqueFieldName.
    rewrite result_bind by apply fields_but_existing_readonly.
    apply unique_check_fails_iff.
  - intros this s. unfold FieldForm.mustHaveUniqueFieldAPIName.
    rewrite result_bind by apply fields_but_existing_readonly.
    apply unique_check_fails_iff.
  - intros this id edited defaults others s editing self.
    assert (Hdrop : result FieldForm.fields_but_existing (editing (self :: others))
                    = result FieldForm.fields_but_existing (editing others)).
    { unfold result, FieldForm.fields_but_existing, FieldForm.existingFieldId,
        editing, self. simpl.
      rewrite !prop_insert. simpl. now rewrite Z.eqb_refl. }
    unfold FieldForm.mustHaveUniqueFieldName, FieldForm.mustHaveUniqueFieldAPIName.
    rewrite !result_bind by apply fields_but_existing_readonly.
    now rewrite Hdrop.
  - vm_compute. reflexivity.
  - vm_compute. reflexivity.
Qed.

(** ** The field form: validity and the dirty flags *)

Section FieldFormValidity.
Variable max : N.
Variable reserved : list JS.str.

Lemma apply_touch_set_dirty (this : FieldForm.vm) (op : FieldForm.touch_op) :
  exists d, FieldForm.apply_touch max reserved this op = FieldForm.set_dirty d this.
Proof.
  destruct op as [key| |]; simpl.
  - eexists. reflexivity.
  - unfold FieldForm.touch_all, after, mbind, M_bind.
    rewrite (readonly_run _ this (FieldForm_validations_readonly max reserved)).
    eexists. reflexivity.
  - eexists. reflexivity.
Qed.

Lemma touches_set_dirty (ops : list FieldForm.touch_op) (this : FieldForm.vm) :
  exists d, fold_left (FieldForm.apply_touch max reserved) ops this
            = FieldForm.set_dirty d this.
Proof.
  revert this. induction ops as [|op ops IH]; intros this; simpl.
  - exists (FieldForm.dirty this). now destruct this.
  - destruct (apply_touch_set_dirty this op) as [d ->].
    destruct (IH (FieldForm.set_dirty d this)) as [d' ->].
    exists d'. reflexivity.
Qed.

(** C8. Whatever fields are touched, in whatever order (single fields, all
    of them, or a reset of the flags), the values stay as they were and so
    do the result of every rule of every field and the validity of the
    form; each validator gives the same answer before and after. *)
Theorem touching_never_changes_validity
    (ops : list FieldForm.touch_op) (this : FieldForm.vm) :
  let touched := fold_left (FieldForm.apply_touch max reserved) ops this in
  FieldForm.model touched = FieldForm.model this
  /\ result (FieldForm.evaluate max reserved) touched
     = result (FieldForm.evaluate max reserved) this
  /\ result (FieldForm.invalid max reserved) touched
     = result (FieldForm.invalid max reserved) this
  /\ (forall param,
        result (FieldForm.mustHaveUniqueFieldName param) touched
        = result (FieldForm.mustHaveUniqueFieldName param) this
        /\ result (FieldForm.mustHaveUniqueFieldAPIName param) touched
           = result (FieldForm.mustHaveUniqueFieldAPIName param) this
        /\ result (FieldForm.mustUseValidAPINameCharacters param) touched
           = result (FieldForm.mustUseValidAPINameCharacters param) this
        /\ result (FieldForm.mustNotClashWithReservedName reserved param) touched
           = result (FieldForm.mustNotClashWithReservedName reserved param) this).
Proof.
  intros touched. subst touched.
  destruct (touches_set_dirty ops this) as [d ->].
  split; [reflexivity|].
  split; [apply FieldForm_evaluate_set_dirty|].
  split.
  - rewrite !FieldForm_invalid_result. now rewrite FieldForm_evaluate_set_dirty.
  - intros param. repeat split.
Qed.

(** C9. Evaluating the rules leaves the instance (values, fields of the
    table, props, dirty flags) exactly as it was, as does every validator
    method on its own; evaluating again, straight after, gives the same
    outcome. *)
Theorem evaluation_is_pure_and_repeatable (this : FieldForm.vm) :
  after (FieldForm.evaluate max reserved) this = this
  /\ result (FieldForm.evaluate max reserved)
       (after (FieldForm.evaluate max reserved) this)
     = result (FieldForm.evaluate max reserved) this
  /\ (r1 ← FieldForm.evaluate max reserved;
      r2 ← FieldForm.evaluate max reserved;
      mret (r1, r2)) this
     = ((result (FieldForm.evaluate max reserved) this,
         result (FieldForm.evaluate max reserved) this), this)
  /\ (forall param,
        after (FieldForm.mustHaveUniqueFieldName param) this = this
        /\ after (FieldForm.mustHaveUniqueFieldAPIName param) this = this
        /\ after (FieldForm.mustUseValidAPINameCharacters param) this = this
        /\ after (FieldForm.mustNotClashWithReservedName reserved param) this = this).
Proof.
  pose proof (FieldForm_evaluate_readonly max reserved) as Hro.
  split; [apply Hro|].
  split; [now rewrite Hro|].
  split.
  - unfold mbind, M_bind. rewrite (readonly_run _ this Hro).
    rewrite (readonly_run _ this Hro). reflexivity.
  - intros param. repeat split.
Qed.

End FieldFormValidity.

(** ** The table form: what its rules look at *)

Section TableFormFacts.
Variable max : N.

Lemma TableForm_rulemap_readonly (this : TableForm.vm) :
  Vuelidate.rulemap_readonly (result (TableForm.validations max) this).
Proof.
  unfold result, TableForm.validations. simpl.
  repeat (constructor; simpl); intros value; apply readonly_ret.
Qed.

Lemma TableForm_evaluate_readonly : readonly (TableForm.evaluate max).
Proof.
  intros this. unfold TableForm.evaluate, after, mbind, M_bind.
  change (TableForm.validations max this)
    with (result (TableForm.validations max) this, this).
  apply run_fields_readonly, TableForm_rulemap_readonly.
Qed.

Lemma TableForm_evaluate_result (this : TableForm.vm) :
  result (TableForm.evaluate max) this
  = result (Vuelidate.run_fields TableForm.model
              (result (TableForm.validations max) this)) this.
Proof. reflexivity. Qed.

Lemma TableForm_invalid_result (this : TableForm.vm) :
  result (TableForm.invalid max) this
  = Vuelidate.some_invalid (result (TableForm.evaluate max) this).
Proof.
  unfold TableForm.invalid.
  now rewrite result_bind by apply TableForm_evaluate_readonly.
Qed.

(** C2 (as amended). The table form checks its name for [required] and
    [maxLength] and its api_name for [required], [maxLength] and the format
    rule, and for nothing else: whether the form is valid is a function of
    the two values alone. No rule looks at other tables, and the props that
    identify the table being edited ([table], [defaultValues], from which
    [existingTableId] is computed) play no part in it. *)
Theorem table_form_validity_depends_on_its_two_values_only
    (this : TableForm.vm) :
  List.map fst (result (TableForm.validations max) this) = ["name"; "api_name"]
  /\ (List.map (fun fr => List.map fst (snd fr))
        (result (TableForm.validations max) this)
      = [ ["required"; "maxLength"];
          ["required"; "maxLength"; "mustUseValidAPINameCharacters"] ])
  /\ result (TableForm.invalid max) this
     = match TableForm.model this !! "name", TableForm.model this !! "api_name" with
       | Some name, Some api_name =>
           negb (Vuelidate.req (JS.trim name)
                 && (negb (Vuelidate.req name) || N.leb (Vuelidate.len name) max)
                 && Vuelidate.req (JS.trim api_name)
                 && (negb (Vuelidate.req api_name)
                     || N.leb (Vuelidate.len api_name) max)
                 && result (TableForm.mustUseValidAPINameCharacters api_name) this)
       | _, _ => true
       end
  /\ (forall (table : Form.obj) (defaultValues : option Form.obj),
        result (TableForm.invalid max)
          (TableForm.set_props table defaultValues this)
        = result (TableForm.invalid max) this).
Proof.
  assert (Hinv : forall this',
    result (TableForm.invalid max) this'
    = match TableForm.model this' !! "name", TableForm.model this' !! "api_name" with
      | Some name, Some api_name =>
          negb (Vuelidate.req (JS.trim name)
                && (negb (Vuelidate.req name) || N.leb (Vuelidate.len name) max)
                && Vuelidate.req (JS.trim api_name)
                && (negb (Vuelidate.req api_name)
                    || N.leb (Vuelidate.len api_name) max)
                && result (TableForm.mustUseValidAPINameCharacters api_name) this')
      | _, _ => true
      end).
  { intros this'. rewrite TableForm_invalid_result, TableForm_evaluate_result.
    rewrite run_fields_result by apply TableForm_rulemap_readonly.
    unfold result at 1 2. simpl.
    destruct (TableForm.model this' !! "name") as [name|],
      (TableForm.model this' !! "api_name") as [api_name|]; simpl;
      unfold result; simpl.
    - set (a := Vuelidate.req (JS.trim name)).
      set (b := negb (Vuelidate.req name) || N.leb (Vuelidate.len name) max).
      set (c := Vuelidate.req (JS.trim api_name)).
      set (d := negb (Vuelidate.req api_name)
                || N.leb (Vuelidate.len api_name) max).
      match goal with |- context [negb (?x && _ && _ && _ && ?e)] => set (f := e) end.
      destruct a, b, c, d, f; reflexivity.
    - now rewrite !orb_true_r.
    - reflexivity.
    - reflexivity. }
  repeat apply conj.
  - reflexivity.
  - reflexivity.
  - apply Hinv.
  - intros table defaultValues. rewrite !Hinv. reflexivity.
Qed.

End TableFormFacts.

(** C2, the claim as stated fails: a table form editing table 1 whose name
    and api_name are, after trimming, those of another table of the same
    database (table 2) is valid. *)
Lemma table_form_accepts_the_values_of_another_table :
  let edited : Form.obj :=
    {[ "id" := JS.VNumber 1; "name" := JS.VString (JS.lit "Customers");
       "api_name" := JS.VString (JS.lit "customers") ]} in
  let other : Form.obj :=
    {[ "id" := JS.VNumber 2; "name" := JS.VString (JS.lit "Orders");
       "api_name" := JS.VString (JS.lit "orders") ]} in
  let this :=
    after (TableForm.input "api_name" (JS.lit "orders "))
      (after (TableForm.input "name" (JS.lit " Orders"))
         (TableForm.create edited (Some edited))) in
  result TableForm.existingTableId this = JS.VNumber 1
  /\ Form.prop other "id" <> result TableForm.existingTableId this
  /\ option_map (fun s => JS.VString (JS.trim s)) (TableForm.model this !! "name")
     = Some (Form.prop other "name")
  /\ option_map (fun s => JS.VString (JS.trim s)) (TableForm.model this !! "api_name")
     = Some (Form.prop other "api_name")
  /\ result (TableForm.invalid 255) this = false.
Proof.
  vm_compute. repeat apply conj; try reflexivity. discriminate.
Qed.

(** ** What the message slots show *)

(** C7 (as amended). Each message slot shows at most one message. When the
    slot's control is rendered, the field is dirty and some rule fails, it
    is the error of the first failing rule in the order of the template's
    [v-if] / [v-else-if] chain: [required], then the uniqueness,
    reserved-name and format rules, and [maxLength] last. That order lists
    the rules of the rule map, but not in their declaration order, where
    [maxLength] comes second. A field that is not dirty shows no error, and
    neither does a field whose control is not rendered: the api_name of the
    field form while creating, and its type when a type is forced, even
    when that field is dirty and fails. *)
Theorem slot_shows_first_failing_rule_of_its_chain
    (v : Vuelidate.field) (api_name_focused creating : bool)
    (forcedType : option JS.str) :
  Template.error_text (TableForm.name_message v)
  = (if Vuelidate.f_dirty v
     then option_map snd (Template.first_failing TableForm.name_order v)
     else None)
  /\ Template.error_text (TableForm.api_name_message v api_name_focused)
     = (if Vuelidate.f_dirty v
        then option_map snd (Template.first_failing TableForm.api_name_order v)
        else None)
  /\ Template.error_text (FieldForm.name_message v)
     = (if Vuelidate.f_dirty v
        then option_map snd (Template.first_failing FieldForm.name_order v)
        else None)
  /\ Template.error_text (FieldForm.api_name_control creating v api_name_focused)
     = (if Vuelidate.f_dirty v && negb creating
        then option_map snd (Template.first_failing FieldForm.api_name_order v)
        else None)
  /\ Template.error_text (FieldForm.type_message forcedType v)
     = (if Vuelidate.f_dirty v && Vuelidate.invalid v
           && bool_decide (forcedType = None)
        then Some Form.requiredField
        else None)
  /\ (forall max this,
        Permutation (List.map fst TableForm.api_name_order)
          (List.map fst
             (default [] (Form.lookup_field "api_name"
                            (result (TableForm.validations max) this)))))
  /\ (forall max,
        Permutation (List.map fst FieldForm.api_name_order)
          (List.map fst (FieldForm.api_name_rules max))).
Proof.
  repeat apply conj.
  - unfold TableForm.name_message. simpl.
    destruct (Vuelidate.f_dirty v), (Vuelidate.rule v "required"),
      (Vuelidate.rule v "maxLength"); reflexivity.
  - unfold TableForm.api_name_message. simpl.
    destruct (Vuelidate.f_dirty v), (Vuelidate.rule v "required"),
      (Vuelidate.rule v "mustUseValidAPINameCharacters"),
      (Vuelidate.rule v "maxLength"), api_name_focused; reflexivity.
  - unfold FieldForm.name_message. simpl.
    destruct (Vuelidate.f_dirty v), (Vuelidate.rule v "required"),
      (Vuelidate.rule v "mustHaveUniqueFieldName"),
      (Vuelidate.rule v "mustNotClashWithReservedName"),
      (Vuelidate.rule v "maxLength"); reflexivity.
  - unfold FieldForm.api_name_control, FieldForm.api_name_message. simpl.
    destruct creating; simpl; [now rewrite andb_false_r|].
    destruct (Vuelidate.f_dirty v), (Vuelidate.rule v "required"),
      (Vuelidate.rule v "mustHaveUniqueFieldAPIName"),
      (Vuelidate.rule v "mustUseValidAPINameCharacters"),
      (Vuelidate.rule v "maxLength"), api_name_focused; reflexivity.
  - unfold FieldForm.type_message, Vuelidate.error.
    destruct forcedType as [forced|]; simpl.
    + now rewrite andb_false_r.
    + destruct (Vuelidate.f_dirty v && Vuelidate.invalid v); reflexivity.
  - intros max this. simpl. apply perm_skip. symmetry.
    apply (Permutation_cons_append ["mustUseValidAPINameCharacters"] "maxLength").
  - intros max. simpl. apply perm_skip.
    symmetry.
    apply (Permutation_cons_append
             ["mustHaveUniqueFieldAPIName"; "mustUseValidAPINameCharacters"]
             "maxLength").
Qed.

(** C7, the claim as stated fails: with 256 capital letters typed into the
    api_name input of a table form (the length bound being 255) and the
    field touched, the first failing rule in declaration order is
    [maxLength], whose message is [error.nameTooLong], but the slot shows
    the message of the format rule. *)
Lemma shown_error_is_not_first_declared_failure :
  let this :=
    after (TableForm.touch "api_name")
      (after (TableForm.input "api_name" (repeat 65%N 256))
         (TableForm.create ∅ None)) in
  exists v,
    result (TableForm.v_field 255 "api_name") this = Some v
    /\ Vuelidate.f_dirty v = true
    /\ Vuelidate.failing v = ["maxLength"; "mustUseValidAPINameCharacters"]
    /\ TableForm.api_name_message v false
       = Some (Template.Error Form.notValidFormat)
    /\ Form.notValidFormat <> Form.nameTooLong.
Proof.
  eexists. repeat apply conj.
  - vm_compute. reflexivity.
  - reflexivity.
  - reflexivity.
  - reflexivity.
  - discriminate.
Qed.

(** C10. The api_name slot shows the warning exactly when the input is
    focused and the slot shows no error, and it shows an error exactly when
    the field is dirty and one of its rules fails; so any error that is
    shown takes the place of the warning, focused or not. In the field form
    the slot exists only when not creating. *)
Theorem warning_shown_iff_focused_and_no_error_shown
    (v : Vuelidate.field) (api_name_focused creating : bool) :
  (let slot := TableForm.api_name_message v api_name_focused in
   Template.is_warning slot = api_name_focused && negb (Template.is_error slot)
   /\ Template.is_error slot
      = Vuelidate.f_dirty v
        && negb (Vuelidate.rule v "required"
                 && Vuelidate.rule v "mustUseValidAPINameCharacters"
                 && Vuelidate.rule v "maxLength"))
  /\ (let slot := FieldForm.api_name_control creating v api_name_focused in
      Template.is_warning slot
      = negb creating && api_name_focused && negb (Template.is_error slot)
      /\ Template.is_error slot
         = negb creating
           && Vuelidate.f_dirty v
           && negb (Vuelidate.rule v "required"
                    && Vuelidate.rule v "mustHaveUniqueFieldAPIName"
                    && Vuelidate.rule v "mustUseValidAPINameCharacters"
                    && Vuelidate.rule v "maxLength")).
Proof.
  split.
  - unfold TableForm.api_name_message. simpl.
    destruct (Vuelidate.f_dirty v), (Vuelidate.rule v "required"),
      (Vuelidate.rule v "mustUseValidAPINameCharacters"),
      (Vuelidate.rule v "maxLength"), api_name_focused; split; reflexivity.
  - unfold FieldForm.api_name_control, FieldForm.api_name_message. simpl.
    destruct creating; simpl; [split; reflexivity|].
    destruct (Vuelidate.f_dirty v), (Vuelidate.rule v "required"),
      (Vuelidate.rule v "mustHaveUniqueFieldAPIName"),
      (Vuelidate.rule v "mustUseValidAPINameCharacters"),
      (Vuelidate.rule v "maxLength"), api_name_focused; split; reflexivity.
Qed.

(** ** The warning timer *)

Section ApiNameWarningFacts.
Import ApiNameWarning.

Lemma run_app (es1 es2 : list event) (w : world) :
  run (es1 ++ es2) w = run es2 (run es1 w).
Proof. apply fold_left_app. Qed.

Lemma always_app (P : world -> Prop) (es1 es2 : list event) (w : world) :
  always P (es1 ++ es2) w <-> always P es1 w /\ always P es2 (run es1 w).
Proof.
  revert w. induction es1 as [|e es1 IH]; intros w; simpl.
  - split; [|tauto]. intros H. split; [|assumption].
    destruct es2; simpl in H; tauto.
  - rewrite IH. tauto.
Qed.

(** Running callbacks touches neither the window nor [destroyed]; each run
    is recorded. *)
Lemma run_callbacks (cbs : list callback) (w : world) :
  window (fold_left run_callback cbs w) = window w
  /\ destroyed (fold_left run_callback cbs w) = destroyed w
  /\ fired (fold_left run_callback cbs w)
     = fired w ++ repeat (Window.now (window w), destroyed w) (List.length cbs)
  /\ apiNameWarningInterval (this (fold_left run_callback cbs w))
     = apiNameWarningInterval (this w)
  /\ (cbs = [] -> this (fold_left run_callback cbs w) = this w).
Proof.
  revert w. induction cbs as [|c cbs IH]; intros w.
  - simpl. rewrite app_nil_r. tauto.
  - change (fold_left run_callback (c :: cbs) w)
      with (fold_left run_callback cbs (run_callback w c)).
    destruct (IH (run_callback w c)) as (Hw & Hd & Hf & Hh & _).
    rewrite Hw, Hd, Hf, Hh. destruct c. simpl. rewrite <- app_assoc. simpl.
    repeat split. discriminate.
Qed.

Ltac callbacks_facts :=
  match goal with
  | |- context [fold_left run_callback ?c ?x] =>
      destruct (run_callbacks c x) as (Hcw & Hcd & Hcf & Hch & Hct)
  end.

Lemma tick_window (w : world) :
  window (tick w) = snd (Window.elapse (window w)).
Proof. unfold tick. simpl. callbacks_facts. exact Hcw. Qed.

Lemma tick_now (w : world) :
  Window.now (window (tick w)) = (Window.now (window w) + 1)%N.
Proof. now rewrite tick_window. Qed.

Lemma tick_pending (w : world) :
  pending (tick w)
  = List.map (Window.reschedule (Window.now (window w) + 1)) (pending w).
Proof. unfold pending. now rewrite tick_window. Qed.

Lemma tick_destroyed (w : world) : destroyed (tick w) = destroyed w.
Proof. unfold tick. simpl. callbacks_facts. exact Hcd. Qed.

Lemma tick_fired (w : world) :
  fired (tick w)
  = fired w
    ++ repeat ((Window.now (window w) + 1)%N, destroyed w)
         (List.length
            (List.filter (Window.is_due (Window.now (window w) + 1)) (pending w))).
Proof.
  unfold tick. simpl. callbacks_facts.
  rewrite Hcf. simpl. now rewrite List.length_map.
Qed.

(** With nothing due, a tick only moves the clock. *)
Lemma tick_quiet (w : world) :
  Forall (fun i => Window.i_due i <> (Window.now (window w) + 1)%N) (pending w) ->
  this (tick w) = this w /\ pending (tick w) = pending w
  /\ fired (tick w) = fired w.
Proof.
  intros Hq.
  assert (Hnone : List.filter (Window.is_due (Window.now (window w) + 1))
                    (pending w) = []).
  { induction Hq as [|i l Hi Hl IH]; simpl; [reflexivity|].
    unfold Window.is_due at 1.
    destruct (N.eqb_spec (Window.i_due i) (Window.now (window w) + 1));
      [contradiction|assumption]. }
  repeat split.
  - unfold tick. simpl. callbacks_facts.
    rewrite Hct; [reflexivity|].
    unfold pending in Hnone. now rewrite Hnone.
  - rewrite tick_pending. rewrite <- (List.map_id (pending w)) at 2.
    apply List.map_ext_in. intros i Hi.
    rewrite Forall_forall in Hq. specialize (Hq i).
    unfold Window.reschedule, Window.is_due.
    destruct (N.eqb_spec (Window.i_due i) (Window.now (window w) + 1)).
    + exfalso. apply Hq; [now apply list_elem_of_In|assumption].
    + reflexivity.
  - rewrite tick_fired, Hnone. simpl. apply app_nil_r.
Qed.

(** While every pending timer is due later than [k] milliseconds from now,
    waiting [k] milliseconds changes nothing but the clock. *)
Lemma wait_quiet (k : nat) (w : world) (P : world -> Prop) :
  Forall (fun i => (Window.now (window w) + N.of_nat k < Window.i_due i)%N)
    (pending w) ->
  (forall w', this w' = this w -> P w') ->
  always P (wait k) w
  /\ this (run (wait k) w) = this w
  /\ pending (run (wait k) w) = pending w
  /\ fired (run (wait k) w) = fired w
  /\ destroyed (run (wait k) w) = destroyed w
  /\ Window.now (window (run (wait k) w))
     = (Window.now (window w) + N.of_nat k)%N.
Proof.
  revert w. induction k as [|k IH]; intros w Hq HP.
  - simpl. repeat split; [now apply HP|lia].
  - assert (Hq1 : Forall (fun i => Window.i_due i
                                   <> (Window.now (window w) + 1)%N) (pending w)).
    { eapply List.Forall_impl; [|exact Hq]. simpl. intros i Hi. lia. }
    destruct (tick_quiet w Hq1) as (Ht & Hp & Hf).
    destruct (IH (tick w)) as (Ha & Ht' & Hp' & Hf' & Hd' & Hn').
    + rewrite Hp, tick_now. eapply List.Forall_impl; [|exact Hq].
      simpl. intros i Hi. lia.
    + intros w' Hw'. apply HP. congruence.
    + change (wait (S k)) with (Tick :: wait k). simpl.
      rewrite Ht', Hp', Hf', Hd', Hn', Ht, Hp, Hf, tick_destroyed, tick_now.
      repeat split; [now apply HP|assumption|lia].
Qed.

(** Focusing shows the warning and clears the timer whose handle is stored. *)
Lemma focus_clears_stored_timer (w : world) (h : Window.handle) :
  apiNameWarningInterval (this w) = Some h ->
  visible (step w Focus) = true
  /\ pending (step w Focus)
     = List.filter (fun i => negb (Pos.eqb (Window.i_handle i) h)) (pending w).
Proof.
  intros Hh.
  unfold visible, pending, step, after, apiNameFocus, mbind, M_bind, gets.
  rewrite Hh. split; reflexivity.
Qed.

(** After a focus and a blur, focusing again before
    the cooldown has elapsed clears the timer, and the warning has been
    visible in every state since the first focus and stays so however long
    one waits afterwards. *)
Lemma refocus_before_cooldown_keeps_warning_visible (n m : nat) :
  n < 500 ->
  always (fun w => visible w = true)
    ([Blur] ++ wait n ++ [Focus] ++ wait m) (step init Focus)
  /\ pending (run ([Focus; Blur] ++ wait n ++ [Focus]) init) = [].
Proof.
  intros Hn.
  set (w1 := step (step init Focus) Blur).
  assert (Hw1 : visible w1 = true /\ Window.now (window w1) = 0%N
                /\ pending w1
                   = [{| Window.i_handle := 1%positive; Window.i_period := 500;
                         Window.i_due := 500; Window.i_callback := HideWarning |}]
                /\ apiNameWarningInterval (this w1) = Some 1%positive)
    by (repeat split).
  destruct Hw1 as (Hv1 & Hn1 & Hp1 & Hh1).
  destruct (wait_quiet n w1 (fun w => visible w = true))
    as (Ha & Ht & Hp & _ & _ & _).
  { rewrite Hp1, Hn1. repeat constructor. simpl. lia. }
  { intros w' Hw'. unfold visible. now rewrite Hw'. }
  set (w2 := run (wait n) w1) in *.
  set (w3 := step w2 Focus).
  assert (Hw3 : visible w3 = true /\ pending w3 = []).
  { destruct (focus_clears_stored_timer w2 1%positive) as (Hv & Hp').
    - now rewrite Ht.
    - split; [exact Hv|]. fold w3 in Hp'. rewrite Hp', Hp, Hp1. reflexivity. }
  destruct Hw3 as (Hv3 & Hp3).
  destruct (wait_quiet m w3 (fun w => visible w = true)) as (Ha3 & _).
  { rewrite Hp3. constructor. }
  { intros w' Hw'. unfold visible in *. now rewrite Hw'. }
  split.
  - change ([Blur] ++ wait n ++ [Focus] ++ wait m)
      with (Blur :: (wait n ++ Focus :: wait m)).
    split; [reflexivity|].
    apply always_app. split; [exact Ha|].
    split; [|exact Ha3].
    change (visible w2 = true). unfold visible. rewrite Ht. exact Hv1.
  - rewrite !run_app. exact Hp3.
Qed.

(** C3. A focus, a blur and a wait of the cooldown hide the warning, as the
    claim says, but the timer is an interval: it is still registered, its
    handle is still stored, and it fires again every 500 ms (here at 1000
    and 1500 ms) until the input is focused again. *)
Theorem warning_timer_keeps_running_after_it_fired :
  let w := run ([Focus; Blur] ++ wait 500) init in
  visible w = false
  /\ pending w
     = [{| Window.i_handle := 1%positive; Window.i_period := 500;
           Window.i_due := 1000; Window.i_callback := HideWarning |}]
  /\ apiNameWarningInterval (this w) = Some 1%positive
  /\ fired w = [(500%N, false)]
  /\ fired (run (wait 1000) w) = [(500%N, false); (1000%N, false); (1500%N, false)].
Proof.
  vm_compute. repeat split.
Qed.

(** Callback runs are never forgotten. *)
Lemma fired_mono (x : N * bool) (es : list event) (w : world) :
  In x (fired w) -> In x (fired (run es w)).
Proof.
  revert w. induction es as [|e es IH]; intros w Hx; simpl; [assumption|].
  apply IH. destruct e; simpl.
  - unfold after, apiNameFocus, mbind, M_bind, gets, in_window. simpl.
    destruct (apiNameWarningInterval (this w)); exact Hx.
  - exact Hx.
  - rewrite tick_fired. apply in_or_app. now left.
  - exact Hx.
Qed.

(** A pending timer that is not yet due is still pending, unchanged, after
    any wait that ends before it is due, destroyed or not. *)
Lemma wait_keeps_pending (i : Window.interval callback) (k : nat) (w : world) :
  In i (pending w) ->
  (Window.now (window w) + N.of_nat k < Window.i_due i)%N ->
  In i (pending (run (wait k) w))
  /\ Window.now (window (run (wait k) w))
     = (Window.now (window w) + N.of_nat k)%N
  /\ destroyed (run (wait k) w) = destroyed w.
Proof.
  revert w. induction k as [|k IH]; intros w Hi Hdue.
  - simpl. repeat split; [assumption|lia].
  - change (wait (S k)) with (Tick :: wait k). simpl.
    destruct (IH (tick w)) as (Hi' & Hn' & Hd').
    + rewrite tick_pending. apply List.in_map_iff. exists i.
      split; [|assumption].
      unfold Window.reschedule, Window.is_due.
      destruct (N.eqb_spec (Window.i_due i) (Window.now (window w) + 1));
        [lia|reflexivity].
    + rewrite tick_now. lia.
    + rewrite Hn', Hd', tick_now, tick_destroyed. repeat split; [assumption|lia].
Qed.

(** A pending timer fires when its time comes, whether or not the component
    has been destroyed in the meantime. *)
Lemma pending_timer_fires (i : Window.interval callback) (k : nat) (w : world) :
  In i (pending w) ->
  (Window.now (window w) < Window.i_due i)%N ->
  (Window.i_due i <= Window.now (window w) + N.of_nat k)%N ->
  In (Window.i_due i, destroyed w) (fired (run (wait k) w)).
Proof.
  revert w. induction k as [|k IH]; intros w Hi Hlo Hhi; [lia|].
  change (wait (S k)) with (Tick :: wait k). simpl.
  destruct (N.eqb_spec (Window.i_due i) (Window.now (window w) + 1)) as [E|E].
  - apply fired_mono. rewrite tick_fired. apply in_or_app. right.
    assert (Hin : In i (List.filter
                          (Window.is_due (Window.now (window w) + 1)) (pending w))).
    { apply List.filter_In. split; [assumption|].
      unfold Window.is_due. now apply N.eqb_eq. }
    destruct (List.filter (Window.is_due (Window.now (window w) + 1)) (pending w));
      [contradiction|].
    simpl. left. now rewrite E.
  - rewrite <- (tick_destroyed w). apply IH.
    + rewrite tick_pending. apply List.in_map_iff. exists i.
      split; [|assumption].
      unfold Window.reschedule, Window.is_due.
      destruct (N.eqb_spec (Window.i_due i) (Window.now (window w) + 1));
        [contradiction|reflexivity].
    + rewrite tick_now. lia.
    + rewrite tick_now. lia.
Qed.

(** C4 (as amended). Of the forms' own code only [apiNameFocus] cancels a
    pending warning timer. Neither form declares a teardown hook, so
    unmounting does not cancel it: when the input is blurred and the form
    is destroyed before the cooldown has elapsed, the timer is still
    pending and its callback runs on the destroyed form when the cooldown
    is over. *)
Theorem unmount_does_not_cancel_pending_timer (w : world) (n m : nat) :
  n < 500 -> 500 <= n + m ->
  In ((Window.now (window w) + cooldown)%N, true)
     (fired (run ([Blur] ++ wait n ++ [Destroy] ++ wait m) w)).
Proof.
  intros Hn Hm.
  set (i0 := {| Window.i_handle := Window.next_handle (window w);
                Window.i_period := cooldown;
                Window.i_due := (Window.now (window w) + cooldown)%N;
                Window.i_callback := HideWarning |}).
  set (w1 := step w Blur).
  assert (Hi1 : In i0 (pending w1)).
  { unfold w1, pending. simpl. apply in_or_app. right. now left. }
  assert (Hn1 : Window.now (window w1) = Window.now (window w)) by reflexivity.
  destruct (wait_keeps_pending i0 n w1 Hi1) as (Hi2 & Hn2 & _).
  { rewrite Hn1. simpl. unfold cooldown. lia. }
  change ([Blur] ++ wait n ++ [Destroy] ++ wait m)
    with ([Blur] ++ wait n ++ [Destroy] ++ wait m).
  rewrite !run_app. change (run [Blur] w) with w1.
  set (w2 := run (wait n) w1) in *.
  change (run [Destroy] w2) with (destroy w2).
  change (Window.now (window w) + cooldown)%N with (Window.i_due i0).
  change true with (destroyed (destroy w2)).
  apply pending_timer_fires.
  - exact Hi2.
  - change (window (destroy w2)) with (window w2). rewrite Hn2, Hn1.
    simpl. unfold cooldown. lia.
  - change (window (destroy w2)) with (window w2). rewrite Hn2, Hn1.
    simpl. unfold cooldown. lia.
Qed.

End ApiNameWarningFacts.

(** The theorem at a new form: blur, unmount at once, and 500 ms later the
    callback runs on the destroyed component. *)
Lemma unmount_does_not_cancel_pending_timer_witness :
  0 < 500 /\ 500 <= 0 + 500
  /\ In (500%N, true)
       (ApiNameWarning.fired
          (ApiNameWarning.run
             ([ApiNameWarning.Blur] ++ ApiNameWarning.wait 0
              ++ [ApiNameWarning.Destroy] ++ ApiNameWarning.wait 500)
             ApiNameWarning.init)).
Proof.
  split; [lia|]. split; [lia|].
  apply (unmount_does_not_cancel_pending_timer ApiNameWarning.init 0 500); lia.
Defined.

(** C4, the claim as stated fails: focus, blur, unmount, and after the
    cooldown the timer's callback has run on the destroyed form. *)
Lemma timer_callback_runs_after_unmount :
  let w :=
    ApiNameWarning.run
      ([ApiNameWarning.Focus; ApiNameWarning.Blur; ApiNameWarning.Destroy]
       ++ ApiNameWarning.wait 500)
      ApiNameWarning.init in
  ApiNameWarning.destroyed w = true
  /\ ApiNameWarning.fired w = [(500%N, true)]
  /\ ApiNameWarning.pending w <> [].
Proof.
  vm_compute. repeat split. discriminate.
Qed.

(** ** What the two library rules accept *)

Lemma required_passes_iff {S : Type} (this : S) (s : JS.str) :
  result (Vuelidate.required s) this = true <-> JS.trim s <> [].
Proof.
  unfold result, Vuelidate.required, Vuelidate.req. simpl.
  destruct (JS.trim s); simpl; split; congruence.
Qed.

Lemma maxLength_passes_iff {S : Type} (max : N) (this : S) (s : JS.str) :
  result (Vuelidate.maxLength max s) this = true
  <-> s = [] \/ (N.of_nat (List.length s) <= max)%N.
Proof.
  unfold result, Vuelidate.maxLength, Vuelidate.req, Vuelidate.len. simpl.
  rewrite orb_true_iff, N.leb_le.
  destruct s; simpl; split; intros [H|H]; auto; discriminate.
Qed.

(** ** The field form: api_name while creating and while editing *)

Section FieldFormCreating.
Variable max : N.
Variable reserved : list JS.str.

(** What a submission does: every ruled field becomes dirty, nothing else
    changes, and what is emitted, if anything, is the values object. *)
Lemma submit_run (this : FieldForm.vm) :
  exists d,
    FieldForm.submit max reserved this
    = (if result (FieldForm.invalid max reserved) this
       then None else Some (FieldForm.model this),
       FieldForm.set_dirty d this).
Proof.
  unfold FieldForm.submit, FieldForm.touch_all, mbind, M_bind.
  rewrite (readonly_run _ this (FieldForm_validations_readonly max reserved)).
  unfold modify.
  match goal with
  | |- context [FieldForm.set_dirty ?d this] => exists d; set (touched := FieldForm.set_dirty d this)
  end.
  rewrite (readonly_run _ touched (FieldForm_invalid_readonly max reserved)).
  unfold gets, mret, M_ret.
  unfold touched. rewrite FieldForm_invalid_result, FieldForm_evaluate_set_dirty.
  rewrite <- FieldForm_invalid_result. reflexivity.
Qed.

(** While creating, the api_name input is not rendered. *)
Lemma rendered_while_creating (this : FieldForm.vm) (key : string) :
  FieldForm.creating (FieldForm.prp this) = true ->
  FieldForm.rendered this key = true -> key <> "api_name".
Proof.
  intros Hc Hr ->. unfold FieldForm.rendered in Hr. simpl in Hr.
  rewrite Hc in Hr. discriminate.
Qed.

(** In creation mode no session ever gives [values] an [api_name] key. *)
Lemma session_keeps_api_name_absent
    (es : list FieldForm.event) (st : list (gmap string JS.str) * FieldForm.vm) :
  FieldForm.creating (FieldForm.prp (snd st)) = true ->
  FieldForm.model (snd st) !! "api_name" = None ->
  Forall (fun vals : gmap string JS.str => vals !! "api_name" = None) (fst st) ->
  let st' := fold_left (FieldForm.step max reserved) es st in
  FieldForm.creating (FieldForm.prp (snd st')) = true
  /\ FieldForm.model (snd st') !! "api_name" = None
  /\ Forall (fun vals : gmap string JS.str => vals !! "api_name" = None) (fst st').
Proof.
  revert st. induction es as [|e es IH]; intros [emitted this] Hc Hv He; simpl in *.
  - tauto.
  - apply IH; destruct e as [key typed|key|]; simpl.
    + unfold after, FieldForm.input, modify. simpl.
      destruct (FieldForm.rendered this key); exact Hc.
    + exact Hc.
    + destruct (submit_run this) as [d ->].
      destruct (result (FieldForm.invalid max reserved) this); exact Hc.
    + unfold after, FieldForm.input, modify. simpl.
      destruct (FieldForm.rendered this key) eqn:Hr; [|exact Hv].
      unfold FieldForm.model. simpl.
      rewrite lookup_insert_ne; [exact Hv|].
      apply (rendered_while_creating this key Hc Hr).
    + exact Hv.
    + destruct (submit_run this) as [d ->].
      destruct (result (FieldForm.invalid max reserved) this); exact Hv.
    + exact He.
    + exact He.
    + destruct (submit_run this) as [d ->].
      destruct (result (FieldForm.invalid max reserved) this); simpl; [exact He|].
      apply Forall_app. split; [exact He|]. constructor; [exact Hv|constructor].
Qed.

(** C5. The rule map has an [api_name] entry exactly when the form is not
    creating, and it then holds [required], [maxLength], the uniqueness
    rule and the format rule; [data()] gives [values] an [api_name] key, and
    lists it in [allowedValues], exactly when not creating. In creation
    mode, whatever is typed, touched and submitted, the evaluated fields
    are [name] and [type] only, [values] never gets an [api_name] key and
    no emitted values object has one. When editing, [api_name] is evaluated
    after [name] and [type], and its four rules are these: [required]
    passes when the value is not blank; [maxLength] when the value is empty
    or has at most [MAX_FIELD_NAME_LENGTH] code units, untrimmed; the
    uniqueness rule fails when another field of the table has the trimmed
    value as its api_name; the format rule is the methods' test of the
    trimmed value. So an api_name is accepted exactly when it is not blank,
    not too long, not another field's api_name and of that format. *)
Theorem api_name_is_absent_while_creating :
  (forall this : FieldForm.vm,
      Form.lookup_field "api_name" (result (FieldForm.validations max reserved) this)
      = if FieldForm.creating (FieldForm.prp this)
        then None
        else Some (FieldForm.api_name_rules max))
  /\ List.map fst (FieldForm.api_name_rules max)
     = [ "required"; "maxLength"; "mustHaveUniqueFieldAPIName";
         "mustUseValidAPINameCharacters" ]
  /\ (forall p : FieldForm.props,
        Form.values (FieldForm.data p) !! "api_name"
        = (if FieldForm.creating p then None else Some [])
        /\ (bool_decide ("api_name" ∈ Form.allowedValues (FieldForm.data p))
            = negb (FieldForm.creating p)))
  /\ (forall (p : FieldForm.props) (fields : list Form.obj)
             (es : list FieldForm.event),
        let st :=
          FieldForm.session max reserved es
            (FieldForm.create (FieldForm.set_creating true p) fields) in
        Forall (fun vals : gmap string JS.str => vals !! "api_name" = None) (fst st)
        /\ FieldForm.model (snd st) !! "api_name" = None
        /\ List.map fst (result (FieldForm.evaluate max reserved) (snd st))
           = ["name"; "type"])
  /\ (forall this : FieldForm.vm,
        List.map fst (result (FieldForm.evaluate max reserved) this)
        = if FieldForm.creating (FieldForm.prp this)
          then ["name"; "type"]
          else ["name"; "type"; "api_name"])
  /\ (forall (this : FieldForm.vm) (s : JS.str) (dirty : bool),
        let v :=
          {| Vuelidate.f_dirty := dirty;
             Vuelidate.f_results :=
               result (Vuelidate.run_rules (FieldForm.api_name_rules max) s)
                 this |} in
        let taken :=
          exists f, In f (FieldForm.fields this)
            /\ (result FieldForm.existingFieldId this = JS.VNull
                \/ Form.prop f "id" <> result FieldForm.existingFieldId this)
            /\ Form.prop f "api_name" = JS.VString (JS.trim s) in
        (Vuelidate.rule v "required" = true <-> JS.trim s <> [])
        /\ (Vuelidate.rule v "maxLength" = true
            <-> s = [] \/ (N.of_nat (List.length s) <= max)%N)
        /\ (Vuelidate.rule v "mustHaveUniqueFieldAPIName" = false <-> taken)
        /\ Vuelidate.rule v "mustUseValidAPINameCharacters"
           = IdentifierRules.format_test (JS.trim s)
        /\ (Vuelidate.invalid v = false
            <-> JS.trim s <> []
                /\ (N.of_nat (List.length s) <= max)%N
                /\ ~ taken
                /\ IdentifierRules.format_test (JS.trim s) = true)).
Proof.
  repeat apply conj.
  - intros this. rewrite FieldForm_validations_result.
    destruct (FieldForm.creating (FieldForm.prp this)); reflexivity.
  - reflexivity.
  - intros p. unfold FieldForm.data.
    destruct (FieldForm.creating p); simpl; split; reflexivity.
  - intros p fields es st.
    destruct (session_keeps_api_name_absent es
                ([], FieldForm.create (FieldForm.set_creating true p) fields))
      as (Hc & Hv & He); try reflexivity; [constructor|].
    fold (FieldForm.session max reserved es
            (FieldForm.create (FieldForm.set_creating true p) fields)) in Hc, Hv, He.
    fold st in Hc, Hv, He.
    split; [exact He|]. split; [exact Hv|].
    rewrite FieldForm_evaluate_result.
    rewrite run_fields_result by apply FieldForm_rulemap_readonly.
    rewrite List.map_map. simpl.
    rewrite FieldForm_validations_result, Hc. reflexivity.
  - intros this.
    rewrite FieldForm_evaluate_result.
    rewrite run_fields_result by apply FieldForm_rulemap_readonly.
    rewrite List.map_map. simpl.
    rewrite FieldForm_validations_result.
    destruct (FieldForm.creating (FieldForm.prp this)); reflexivity.
  - intros this s dirty v taken.
    assert (Hresults :
              Vuelidate.f_results v
              = [ ("required", result (Vuelidate.required s) this);
                  ("maxLength", result (Vuelidate.maxLength max s) this);
                  ("mustHaveUniqueFieldAPIName",
                   result (FieldForm.mustHaveUniqueFieldAPIName s) this);
                  ("mustUseValidAPINameCharacters",
                   result (FieldForm.mustUseValidAPINameCharacters s) this) ]).
    { change (Vuelidate.f_results v)
        with (result (Vuelidate.run_rules (FieldForm.api_name_rules max) s) this).
      unfold FieldForm.api_name_rules.
      rewrite run_rules_result; [reflexivity|].
      repeat (constructor; simpl); intros value;
        first [ apply required_readonly | apply maxLength_readonly
              | apply mustHaveUniqueFieldAPIName_readonly
              | apply FieldForm_mustUseValidAPINameCharacters_readonly ]. }
    unfold Vuelidate.rule, Vuelidate.invalid. rewrite Hresults. simpl.
    rewrite orb_false_r.
    pose proof (required_passes_iff this s) as Hreq.
    pose proof (maxLength_passes_iff max this s) as Hmax.
    assert (Huniq : result (FieldForm.mustHaveUniqueFieldAPIName s) this = false
                    <-> taken).
    { unfold FieldForm.mustHaveUniqueFieldAPIName.
      rewrite result_bind by apply fields_but_existing_readonly.
      apply unique_check_fails_iff. }
    pose proof (FieldForm_format_result s this) as Hfmt.
    assert (Hblank : s = [] -> JS.trim s = []) by (intros ->; reflexivity).
    split; [exact Hreq|]. split; [exact Hmax|]. split; [exact Huniq|].
    split; [exact Hfmt|]. split.
    + intros Hnone. apply orb_false_elim in Hnone as [H1 Hnone].
      apply orb_false_elim in Hnone as [H2 Hnone].
      apply orb_false_elim in Hnone as [H3 H4].
      apply negb_false_iff in H1, H2, H3, H4.
      assert (Hne : JS.trim s <> []) by now apply Hreq.
      repeat apply conj.
      * exact Hne.
      * destruct (proj1 Hmax H2) as [E|Hm]; [|exact Hm].
        now elim Hne; apply Hblank.
      * intros Ht. apply Huniq in Ht. congruence.
      * now rewrite <- Hfmt.
    + intros (Hne & Hm & Hfree & Hf).
      rewrite (proj2 Hreq Hne), (proj2 Hmax (or_intror Hm)), Hfmt, Hf.
      destruct (result (FieldForm.mustHaveUniqueFieldAPIName s) this);
        [reflexivity|].
      now elim Hfree; apply Huniq.
Qed.

End FieldFormCreating.

(** ** The super-admin mixin *)

Lemma split_nonempty (sep : N) (s : JS.str) : SuperAdmin.split sep s <> [].
Proof.
  destruct s as [|c r]; simpl; [discriminate|].
  destruct (N.eqb c sep); [discriminate|].
  destruct (SuperAdmin.split sep r); discriminate.
Qed.

(** Joining the pieces with the separator gives the string back, and no
    piece contains the separator. *)
Lemma join_split (sep : N) (s : JS.str) :
  SuperAdmin.join sep (SuperAdmin.split sep s) = s
  /\ Forall (fun piece => ~ In sep piece) (SuperAdmin.split sep s).
Proof.
  induction s as [|c r [IHj IHf]]; simpl.
  - split; [reflexivity|]. repeat constructor. intros [].
  - destruct (N.eqb_spec c sep) as [->|Hc].
    + pose proof (split_nonempty sep r) as Hne.
      destruct (SuperAdmin.split sep r) as [|piece pieces] eqn:E; [contradiction|].
      split.
      * simpl. simpl in IHj. now rewrite IHj.
      * constructor; [intros []|assumption].
    + pose proof (split_nonempty sep r) as Hne.
      destruct (SuperAdmin.split sep r) as [|piece pieces] eqn:E; [contradiction|].
      pose proof (List.Forall_inv IHf) as Hp.
      pose proof (List.Forall_inv_tail IHf) as Hps.
      split.
      * simpl in *. destruct pieces; simpl in *; now rewrite IHj.
      * constructor; [|assumption]. simpl. intros [H|H]; [congruence|contradiction].
Qed.

Lemma assign_all_lookup (items : list JS.str) (acc : SuperAdmin.admins) (key : JS.str) :
  fold_left SuperAdmin.assign_true items acc !! key
  = if bool_decide (key ∈ items) && negb (JS.str_eqb key SuperAdmin.proto)
    then Some true
    else acc !! key.
Proof.
  revert acc. induction items as [|item items IH]; intros acc; simpl.
  - reflexivity.
  - rewrite IH. unfold SuperAdmin.assign_true.
    destruct (decide (key = item)) as [->|Hne].
    + rewrite (bool_decide_eq_true_2 (item ∈ item :: items)) by left.
      destruct (bool_decide (item ∈ items)); simpl.
      * destruct (JS.str_eqb item SuperAdmin.proto); reflexivity.
      * destruct (JS.str_eqb item SuperAdmin.proto); simpl; [reflexivity|].
        now rewrite lookup_insert_eq.
    + assert (Hin : bool_decide (key ∈ item :: items) = bool_decide (key ∈ items)).
      { apply bool_decide_ext. rewrite elem_of_cons. tauto. }
      rewrite Hin.
      destruct (bool_decide (key ∈ items) && negb (JS.str_eqb key SuperAdmin.proto));
        [reflexivity|].
      destruct (JS.str_eqb item SuperAdmin.proto); [reflexivity|].
      rewrite lookup_insert_ne by congruence. reflexivity.
Qed.

Lemma proto_is_inherited :
  bool_decide (SuperAdmin.proto ∈ SuperAdmin.inherited_names) = true.
Proof. vm_compute. reflexivity. Qed.

Lemma special_names_have_no_at_sign :
  Forall (fun name => ~ In SuperAdmin.at_sign name)
    (SuperAdmin.observer :: SuperAdmin.inherited_names).
Proof.
  repeat constructor; vm_compute; intros H;
    repeat (destruct H as [H|H]; [discriminate|]); exact H.
Qed.

(** What the lookup amounts to for a non-empty email. *)
Lemma isSuperAdmin_truthy (SUPER_ADMINS : JS.str) (c : N) (r : JS.str) :
  let items := List.map JS.trim (SuperAdmin.split SuperAdmin.comma SUPER_ADMINS) in
  SuperAdmin.truthy
    (SuperAdmin.isSuperAdmin (fold_left SuperAdmin.assign_true items ∅)
       (SuperAdmin.Email (c :: r)))
  = bool_decide (c :: r ∈ items)
    || bool_decide (c :: r ∈ SuperAdmin.observer :: SuperAdmin.inherited_names).
Proof.
  intros items. unfold SuperAdmin.isSuperAdmin, SuperAdmin.get.
  rewrite assign_all_lookup, lookup_empty. unfold JS.str_eqb.
  pose proof proto_is_inherited as Hpi. apply bool_decide_eq_true in Hpi.
  repeat case_bool_decide; simpl; try reflexivity; exfalso;
    repeat match goal with
           | H : ¬ _ ∈ _ :: _ |- _ => rewrite elem_of_cons in H
           | H : _ ∈ SuperAdmin.observer :: _ |- _ => apply elem_of_cons in H as [H|H]
           end;
    try tauto; try congruence.
Qed.

(** X1. An email address (a string with an [@] in it) is a super admin
    exactly when it is, character for character, the trimmed form of one of
    the comma-separated entries of [SUPER_ADMINS]. Entries are trimmed, the
    email is not, and letter case counts. *)
Theorem isSuperAdmin_iff_email_is_a_trimmed_entry
    (SUPER_ADMINS : JS.str) (address : JS.str) :
  In SuperAdmin.at_sign address ->
  exists superAdmins,
    SuperAdmin.created (Some SUPER_ADMINS) = Some superAdmins
    /\ (SuperAdmin.truthy
          (SuperAdmin.isSuperAdmin superAdmins (SuperAdmin.Email address)) = true
        <-> In address
              (List.map JS.trim (SuperAdmin.split SuperAdmin.comma SUPER_ADMINS))).
Proof.
  intros Hat. eexists. split; [reflexivity|].
  destruct address as [|c r]; [destruct Hat|].
  rewrite isSuperAdmin_truthy, orb_true_iff, !bool_decide_eq_true, !list_elem_of_In.
  split; [|tauto]. intros [H|H]; [exact H|].
  pose proof special_names_have_no_at_sign as Hs.
  rewrite List.Forall_forall in Hs. elim (Hs _ H Hat).
Qed.

Lemma isSuperAdmin_iff_email_is_a_trimmed_entry_witness :
  In SuperAdmin.at_sign (JS.lit "a@b.c")
  /\ exists superAdmins,
       SuperAdmin.created (Some (JS.lit "x@y.z, a@b.c ,")) = Some superAdmins
       /\ (SuperAdmin.truthy
             (SuperAdmin.isSuperAdmin superAdmins (SuperAdmin.Email (JS.lit "a@b.c")))
           = true
           <-> In (JS.lit "a@b.c")
                 (List.map JS.trim
                    (SuperAdmin.split SuperAdmin.comma (JS.lit "x@y.z, a@b.c ,")))).
Proof.
  assert (H : In SuperAdmin.at_sign (JS.lit "a@b.c")) by (vm_compute; tauto).
  split; [exact H|].
  exact (isSuperAdmin_iff_email_is_a_trimmed_entry
           (JS.lit "x@y.z, a@b.c ,") (JS.lit "a@b.c") H).
Defined.

(** X2. A missing or empty email is never a super admin, whatever the
    list holds (an empty list gives the one entry [""]); and every name
    that objects inherit, such as ["constructor"] or ["toString"], is
    answered as a super admin although it is no entry. *)
Theorem isSuperAdmin_edge_emails (SUPER_ADMINS : JS.str) :
  exists superAdmins,
    SuperAdmin.created (Some SUPER_ADMINS) = Some superAdmins
    /\ SuperAdmin.truthy (SuperAdmin.isSuperAdmin superAdmins SuperAdmin.NoEmail) = false
    /\ SuperAdmin.truthy
         (SuperAdmin.isSuperAdmin superAdmins (SuperAdmin.Email [])) = false
    /\ Forall (fun name =>
                 SuperAdmin.truthy
                   (SuperAdmin.isSuperAdmin superAdmins (SuperAdmin.Email name)) = true)
         SuperAdmin.inherited_names
    /\ SuperAdmin.created (Some []) = Some {[ [] := true ]}
    /\ SuperAdmin.created None = None.
Proof.
  eexists. split; [reflexivity|]. repeat apply conj; try reflexivity.
  apply List.Forall_forall. intros name Hname.
  assert (Hne : exists c r, name = c :: r).
  { destruct name as [|c r]; [|eauto]. exfalso. revert Hname.
    vm_compute. intros H. repeat (destruct H as [H|H]; [discriminate|]). exact H. }
  destruct Hne as (c & r & ->).
  rewrite isSuperAdmin_truthy. apply orb_true_iff. right.
  apply bool_decide_eq_true. right. now apply list_elem_of_In.
Qed.

(** ** The tooltip directive *)

Section TooltipFacts.
Import Tooltip.

Lemma tooltip_run_app (es1 es2 : list event) (p : page) :
  run (es1 ++ es2) p = p' ← run es1 p; run es2 p'.
Proof.
  revert p. induction es1 as [|e es1 IH]; intros p; simpl; [reflexivity|].
  destruct (step p e) as [p'|]; simpl; [apply IH|reflexivity].
Qed.

Lemma tooltip_run_then (es : list event) (e : event) (p q : page) :
  run es p = Some q -> run (es ++ [e]) p = step q e.
Proof.
  intros H. rewrite tooltip_run_app, H. simpl. now destruct (step q e).
Qed.

Lemma tooltip_run_first (e : event) (es : list event) (p q : page) :
  step p e = Some q -> run (e :: es) p = run es q.
Proof. intros H. simpl. now rewrite H. Qed.

Lemma show_advance (text : JS.str) (ms : N) (p : page) :
  show text (advance ms p) = advance ms <$> show text p.
Proof.
  unfold show. simpl. destruct (updatePositionEvent (el p)); reflexivity.
Qed.

Lemma run_callbacks_advance (texts : list JS.str) (ms : N) (p : page) :
  run_callbacks texts (advance ms p) = advance ms <$> run_callbacks texts p.
Proof.
  revert p. induction texts as [|text texts IH]; intros p; simpl; [reflexivity|].
  rewrite show_advance. destruct (show text p) as [p'|]; simpl; [apply IH|reflexivity].
Qed.

Lemma run_callbacks_timers (texts : list JS.str) (p q : page) :
  run_callbacks texts p = Some q -> timers q = timers p /\ now q = now p.
Proof.
  revert p. induction texts as [|text texts IH]; intros p; simpl.
  - intros [= <-]. tauto.
  - unfold show at 1. destruct (updatePositionEvent (el p)); [|discriminate].
    simpl. intros H. apply IH in H. exact H.
Qed.

Lemma advance_advance (a b : N) (p : page) :
  advance a (advance b p) = advance (b + a) p.
Proof. unfold advance. simpl. now rewrite N.add_assoc. Qed.

Lemma advance_0 (p : page) : advance 0 p = p.
Proof. unfold advance. rewrite N.add_0_r. now destruct p. Qed.

(** With no timeout due, a tick only moves the clock. *)
Lemma tooltip_tick_quiet (p : page) :
  Forall (fun t => (now p + 1 < t_due t)%N) (timers p) ->
  tick p = Some (advance 1 p).
Proof.
  intros Hq. unfold tick.
  assert (Hd : List.filter (fun t => N.leb (t_due t) (now p + 1)) (timers p) = []).
  { induction Hq as [|t l Ht Hl IH]; simpl; [reflexivity|].
    destruct (N.leb_spec (t_due t) (now p + 1)); [lia|exact IH]. }
  assert (Hl : List.filter (fun t => negb (N.leb (t_due t) (now p + 1))) (timers p)
               = timers p).
  { clear Hd. induction Hq as [|t l Ht Hl IH]; simpl; [reflexivity|].
    destruct (N.leb_spec (t_due t) (now p + 1)); [lia|]. simpl.
    now rewrite IH. }
  rewrite Hd, Hl. reflexivity.
Qed.

Lemma tooltip_wait_quiet (k : nat) (p : page) :
  Forall (fun t => (now p + N.of_nat k < t_due t)%N) (timers p) ->
  run (wait k) p = Some (advance (N.of_nat k) p).
Proof.
  revert p. induction k as [|k IH]; intros p Hq.
  - simpl. now rewrite advance_0.
  - change (wait (S k)) with (Tick :: wait k). simpl.
    rewrite tooltip_tick_quiet.
    + simpl. rewrite IH.
      * rewrite advance_advance. do 2 f_equal. lia.
      * simpl. eapply List.Forall_impl; [|exact Hq]. simpl. intros t Ht. lia.
    + eapply List.Forall_impl; [|exact Hq]. simpl. intros t Ht. lia.
Qed.

Lemma by_due_same_due (D : N) (ts : list timeout) :
  Forall (fun t => t_due t = D) ts -> by_due ts = ts.
Proof.
  induction 1 as [|t l Ht Hl IH]; [reflexivity|].
  change (by_due (t :: l)) with (insert_by_due t (by_due l)). rewrite IH.
  destruct l as [|u l']; simpl; [reflexivity|].
  pose proof (List.Forall_inv Hl) as Hu. simpl in Hu.
  now rewrite Ht, Hu, N.leb_refl.
Qed.

(** Timeouts that are due together have all run, in the order they were
    set, once their time has come, however long one waits. *)
Lemma tooltip_wait_fires (k : nat) (D : N) (p : page) :
  1 <= k ->
  Forall (fun t => t_due t = D) (timers p) ->
  (D <= now p + N.of_nat k)%N ->
  run (wait k) p
  = run_callbacks (List.map t_text (timers p))
      (advance (N.of_nat k) (set_timers [] p)).
Proof.
  revert p. induction k as [|k IH]; intros p Hk Hsame Hdue; [lia|].
  change (wait (S k)) with (Tick :: wait k). simpl.
  destruct (N.leb_spec D (now p + 1)) as [Hnow|Hlater].
  - unfold tick.
    assert (Hd : List.filter (fun t => N.leb (t_due t) (now p + 1)) (timers p)
                 = timers p).
    { clear -Hsame Hnow. induction Hsame as [|t l Ht Hl IH]; simpl; [reflexivity|].
      destruct (N.leb_spec (t_due t) (now p + 1)); [now rewrite IH|lia]. }
    assert (Hl : List.filter (fun t => negb (N.leb (t_due t) (now p + 1))) (timers p)
                 = []).
    { clear -Hsame Hnow. induction Hsame as [|t l Ht Hl IH]; simpl; [reflexivity|].
      destruct (N.leb_spec (t_due t) (now p + 1)); [exact IH|lia]. }
    rewrite Hd, Hl, (by_due_same_due D) by assumption.
    change {| el := el p; body := body p; on_scroll := on_scroll p;
              on_resize := on_resize p; timers := []; now := (now p + 1)%N;
              fresh := fresh p |}
      with (advance 1 (set_timers [] p)).
    replace (advance (N.of_nat (S k)) (set_timers [] p))
      with (advance (N.of_nat k) (advance 1 (set_timers [] p)))
      by (rewrite advance_advance; f_equal; lia).
    rewrite (run_callbacks_advance _ (N.of_nat k)).
    destruct (run_callbacks (List.map t_text (timers p)) (advance 1 (set_timers [] p)))
      as [q|] eqn:Hq; simpl; [|reflexivity].
    apply run_callbacks_timers in Hq as [Ht _]. simpl in Ht.
    apply tooltip_wait_quiet. rewrite Ht. constructor.
  - rewrite tooltip_tick_quiet.
    + simpl. rewrite IH; simpl.
      * f_equal. unfold set_timers, advance. simpl. f_equal. lia.
      * lia.
      * exact Hsame.
      * lia.
    + eapply List.Forall_impl; [|exact Hsame]. simpl. intros t Ht. lia.
Qed.

Lemma remove_child_older (n : id) (children : list (id * JS.str)) :
  older children n -> remove_child n children = children.
Proof.
  induction 1 as [|c l Hc Hl IH]; simpl; [reflexivity|].
  destruct (Pos.eqb_spec (fst c) n) as [E|E]; [lia|]. simpl.
  fold (remove_child n l). now rewrite IH.
Qed.

Lemma older_mono (children : list (id * JS.str)) (n m : id) :
  older children n -> (n <= m)%positive -> older children m.
Proof.
  intros H Hle. eapply List.Forall_impl; [|exact H]. simpl. intros c Hc. lia.
Qed.

Section Hover.
Variables (c : N) (r : JS.str) (d : option N).
Variables (update_position enter leave : id) (children : list (id * JS.str)).

Lemma enter_at_rest (time : N) (next : id) :
  step (at_rest (c :: r) d update_position enter leave children time next) MouseEnter
  = Some (waiting (c :: r) d update_position enter leave children time
            (Pos.succ next) next (time + default 0%N d)).
Proof.
  simpl. rewrite bool_decide_eq_true_2 by apply list_elem_of_here. reflexivity.
Qed.

Lemma wait_while_waiting (k : nat) (time due : N) (next h : id) :
  (time + N.of_nat k < due)%N ->
  run (wait k) (waiting (c :: r) d update_position enter leave children time next h due)
  = Some (waiting (c :: r) d update_position enter leave children
            (time + N.of_nat k) next h due).
Proof.
  intros Hk. rewrite tooltip_wait_quiet; [reflexivity|].
  repeat constructor. exact Hk.
Qed.

Lemma wait_until_shown (k : nat) (time due : N) (next h : id) :
  1 <= k -> (due <= time + N.of_nat k)%N ->
  run (wait k) (waiting (c :: r) d update_position enter leave children time next h due)
  = Some (showing (c :: r) d update_position enter leave children
            (time + N.of_nat k) (Pos.succ (Pos.succ next)) next).
Proof.
  intros Hk Hdue. rewrite (tooltip_wait_fires k due); try assumption.
  - reflexivity.
  - repeat constructor.
Qed.

Lemma leave_while_waiting (time due : N) (next h : id) :
  step (waiting (c :: r) d update_position enter leave children time next h due)
       MouseLeave
  = Some (at_rest (c :: r) d update_position enter leave children time next).
Proof.
  simpl. rewrite bool_decide_eq_true_2 by apply list_elem_of_here.
  unfold mouse_leave. simpl. rewrite Pos.eqb_refl. reflexivity.
Qed.

Lemma leave_while_showing (time : N) (next n : id) :
  older children n ->
  step (showing (c :: r) d update_position enter leave children time next n)
       MouseLeave
  = Some (at_rest (c :: r) d update_position enter leave children time next).
Proof.
  intros Hold. simpl. rewrite bool_decide_eq_true_2 by apply list_elem_of_here.
  unfold mouse_leave. simpl. rewrite Pos.eqb_refl. simpl.
  fold (remove_child n children). rewrite remove_child_older by assumption.
  rewrite !Pos.eqb_refl. reflexivity.
Qed.

End Hover.

(** X3. Hovering a bound element at rest: the tooltip, with the element's
    text, is in the document exactly from the moment the delay (at least
    one millisecond) has passed since the mouse entered; when the mouse
    leaves, before or after that moment, the element is at rest again with
    no tooltip, no pending timeout and no window listener, whatever was in
    the document before being untouched. *)
Theorem hover_shows_tooltip_after_delay_and_leave_restores
    (text : JS.str) (d : option N) (update_position enter leave : id)
    (children : list (id * JS.str)) (time : N) (next : id) (k : nat) :
  text <> [] ->
  older children next ->
  let p := at_rest text d update_position enter leave children time next in
  (exists q, run ([MouseEnter] ++ wait k) p = Some q
             /\ body q = (if (N.of_nat k <? N.max 1 (default 0%N d))%N
                          then children
                          else (Pos.succ next, text) :: children))
  /\ (exists next',
        run ([MouseEnter] ++ wait k ++ [MouseLeave]) p
        = Some (at_rest text d update_position enter leave children
                  (time + N.of_nat k) next')
        /\ (next <= next')%positive).
Proof.
  intros Htext Hold p. destruct text as [|c r]; [contradiction|].
  unfold p. clear p.
  destruct (N.ltb_spec (N.of_nat k) (N.max 1 (default 0%N d))) as [Hk|Hk].
  - assert (Hrun : run ([MouseEnter] ++ wait k)
                     (at_rest (c :: r) d update_position enter leave children time next)
                   = Some (waiting (c :: r) d update_position enter leave children
                             (time + N.of_nat k) (Pos.succ next) next
                             (time + default 0%N d))).
    { change ([MouseEnter] ++ wait k) with (MouseEnter :: wait k).
      rewrite (tooltip_run_first _ _ _ _ (enter_at_rest c r d _ _ _ _ _ _)).
      destruct k as [|k].
      - simpl. now rewrite N.add_0_r.
      - apply wait_while_waiting. lia. }
    split.
    + eexists. split; [exact Hrun|reflexivity].
    + exists (Pos.succ next). split; [|lia].
      rewrite app_assoc, (tooltip_run_then _ _ _ _ Hrun).
      apply leave_while_waiting.
  - assert (Hrun : run ([MouseEnter] ++ wait k)
                     (at_rest (c :: r) d update_position enter leave children time next)
                   = Some (showing (c :: r) d update_position enter leave children
                             (time + N.of_nat k) (Pos.succ (Pos.succ (Pos.succ next)))
                             (Pos.succ next))).
    { change ([MouseEnter] ++ wait k) with (MouseEnter :: wait k).
      rewrite (tooltip_run_first _ _ _ _ (enter_at_rest c r d _ _ _ _ _ _)).
      apply wait_until_shown; lia. }
    split.
    + eexists. split; [exact Hrun|]. reflexivity.
    + exists (Pos.succ (Pos.succ (Pos.succ next))). split; [|lia].
      rewrite app_assoc, (tooltip_run_then _ _ _ _ Hrun).
      apply leave_while_showing.
      apply (older_mono children next); [assumption|lia].
Qed.

Lemma hover_shows_tooltip_after_delay_and_leave_restores_witness :
  JS.lit "Name" <> []
  /\ older [] 4%positive
  /\ exists next',
       run ([MouseEnter] ++ wait 300 ++ [MouseLeave])
         (at_rest (JS.lit "Name") (Some 300%N) 1%positive 2%positive 3%positive
            [] 0%N 4%positive)
       = Some (at_rest (JS.lit "Name") (Some 300%N) 1%positive 2%positive
                 3%positive [] (0 + N.of_nat 300)%N next')
       /\ (4 <= next')%positive.
Proof.
  assert (H1 : JS.lit "Name" <> []) by discriminate.
  assert (H2 : older [] 4%positive) by constructor.
  split; [exact H1|]. split; [exact H2|].
  exact (proj2 (hover_shows_tooltip_after_delay_and_leave_restores
                  (JS.lit "Name") (Some 300%N) 1%positive 2%positive 3%positive
                  [] 0%N 4%positive 300 H1 H2)).
Defined.

End TooltipFacts.

Section TooltipSafety.
Import Tooltip.

Lemma remove_listener_nonempty (f : option id) (l : list id) :
  remove_listener f l <> [] -> l <> [].
Proof. destruct l; [|discriminate]. destruct f; simpl; tauto. Qed.

Lemma terminate_consistent (p : page) : consistent p -> consistent (terminate p).
Proof.
  intros [HA HU]. split; simpl.
  - discriminate.
  - intros [H|H]; apply HU; [now left|right].
    now apply remove_listener_nonempty in H.
Qed.

Lemma initialize_consistent (p : page) : consistent p -> consistent (initialize p).
Proof. intros [HA HU]. split; simpl; [exact HA|discriminate]. Qed.

Lemma set_value_consistent (v : content) (d : option N) (p : page) :
  consistent p -> consistent (set_value v d p).
Proof. intros [HA HU]. split; simpl; assumption. Qed.

Lemma update_consistent (b : binding) (p : page) :
  consistent p -> consistent (update b p).
Proof.
  intros Hp. unfold update, initialize_or_terminate.
  destruct b as [v|v d];
    repeat match goal with
           | |- context [if ?c then _ else _] => destruct c
           end;
    auto using terminate_consistent, initialize_consistent, set_value_consistent.
Qed.

Lemma bind_consistent (b : binding) (p : page) :
  consistent p -> consistent (bind b p).
Proof.
  intros [HA HU]. unfold bind. apply update_consistent.
  split; simpl; [discriminate|exact HU].
Qed.

Lemma mouse_enter_consistent (p : page) :
  consistent p -> on_mouseenter (el p) <> [] -> consistent (mouse_enter p).
Proof.
  intros Hp Hl.
  assert (HU : updatePositionEvent (el p) <> None) by (apply Hp; now right).
  unfold mouse_enter.
  destruct (tooltipElement (el p)) as [n|] eqn:Hn.
  - pose proof (terminate_consistent p Hp) as [HA' _].
    destruct (value (el (terminate p))) as [| |[|c r]];
      split; simpl; try discriminate; try (intros _; exact HU).
  - destruct Hp as [HA _].
    destruct (value (el p)) as [| |[|c r]];
      split; simpl; try (intros _; exact HU); rewrite ?Hn; try discriminate;
      exact HA.
Qed.

Lemma mouse_leave_consistent (p : page) :
  consistent p -> exists q, mouse_leave p = Some q /\ consistent q.
Proof.
  intros [HA HU]. unfold mouse_leave.
  assert (Hkeep : forall ts,
            (ts <> [] -> timers p <> []) ->
            forall children,
            consistent
              {| el := {| value := value (el p); delay := delay (el p);
                          tooltipElement := None;
                          tooltipContentElement :=
                            match tooltipElement (el p) with
                            | Some _ => None
                            | None => tooltipContentElement (el p)
                            end;
                          timeOut := None;
                          updatePositionEvent := updatePositionEvent (el p);
                          tooltipMouseEnterEvent := tooltipMouseEnterEvent (el p);
                          tooltipMoveLeaveEvent := tooltipMoveLeaveEvent (el p);
                          on_mouseenter := on_mouseenter (el p);
                          on_mouseleave := on_mouseleave (el p) |};
                 body := children;
                 on_scroll := remove_listener (updatePositionEvent (el p)) (on_scroll p);
                 on_resize := remove_listener (updatePositionEvent (el p)) (on_resize p);
                 timers := ts; now := now p; fresh := fresh p |}).
  { intros ts Hts children. split; simpl; [discriminate|].
    intros [H|H]; apply HU; [left; now apply Hts|now right]. }
  assert (Hts : match timeOut (el p) with
                | Some h => List.filter (fun t => negb (Pos.eqb (t_handle t) h)) (timers p)
                | None => timers p
                end <> [] -> timers p <> []).
  { destruct (timeOut (el p)); [|tauto]. destruct (timers p); [|discriminate]. tauto. }
  destruct (tooltipElement (el p)) as [n|] eqn:Hn.
  - rewrite (HA n eq_refl). eexists. split; [reflexivity|]. now apply Hkeep.
  - eexists. split; [reflexivity|]. now apply Hkeep.
Qed.

Lemma show_consistent (text : JS.str) (p : page) :
  consistent p -> updatePositionEvent (el p) <> None ->
  exists q, show text p = Some q /\ consistent q
            /\ updatePositionEvent (el q) <> None.
Proof.
  intros [HA HU] Hu. unfold show.
  destruct (updatePositionEvent (el p)) as [u|] eqn:E; [|contradiction].
  eexists. split; [reflexivity|]. split; [split|]; simpl.
  - intros n [= <-]. now rewrite Pos.eqb_refl.
  - discriminate.
  - discriminate.
Qed.

Lemma run_callbacks_consistent (texts : list JS.str) (p : page) :
  consistent p -> (texts <> [] -> updatePositionEvent (el p) <> None) ->
  exists q, run_callbacks texts p = Some q /\ consistent q.
Proof.
  revert p. induction texts as [|text texts IH]; intros p Hp Hu; simpl.
  - eauto.
  - destruct (show_consistent text p Hp) as (q & -> & Hq & Hu'); [now apply Hu|].
    simpl. apply IH; [exact Hq|]. intros _. exact Hu'.
Qed.

Lemma tick_consistent (p : page) :
  consistent p -> exists q, tick p = Some q /\ consistent q.
Proof.
  intros [HA HU]. unfold tick. apply run_callbacks_consistent.
  - split; simpl; [exact HA|]. intros [H|H]; apply HU; [left|now right].
    destruct (timers p); [|discriminate]. simpl in H. tauto.
  - simpl. intros H. apply HU. left.
    destruct (timers p); [|discriminate]. simpl in H. tauto.
Qed.

Lemma dispatch_enter_consistent (listeners : list id) (p : page) :
  consistent p ->
  exists q, dispatch (fun q => Some (mouse_enter q))
              (fun q => on_mouseenter (el q)) listeners p = Some q
            /\ consistent q.
Proof.
  revert p. induction listeners as [|f rest IH]; intros p Hp; simpl; [eauto|].
  case_bool_decide as Hf; [|now apply IH].
  simpl. apply IH. apply mouse_enter_consistent; [exact Hp|].
  intros E. rewrite E in Hf. inversion Hf.
Qed.

Lemma dispatch_leave_consistent (listeners : list id) (p : page) :
  consistent p ->
  exists q, dispatch mouse_leave (fun q => on_mouseleave (el q)) listeners p = Some q
            /\ consistent q.
Proof.
  revert p. induction listeners as [|f rest IH]; intros p Hp; simpl; [eauto|].
  case_bool_decide as Hf; [|now apply IH].
  destruct (mouse_leave_consistent p Hp) as (q & -> & Hq). simpl. now apply IH.
Qed.

Lemma step_consistent (e : event) (p : page) :
  consistent p -> exists q, step p e = Some q /\ consistent q.
Proof.
  intros Hp. destruct e; simpl.
  - eauto using bind_consistent.
  - eauto using update_consistent.
  - eauto using terminate_consistent.
  - now apply dispatch_enter_consistent.
  - now apply dispatch_leave_consistent.
  - now apply tick_consistent.
Qed.

Lemma blank_consistent : consistent blank.
Proof. split; simpl; [discriminate|]. intros [H|H]; now elim H. Qed.

(** X6. Whatever the sequence of hook calls, mouse events and elapsed time
    on a fresh element, no hook, mouse handler or timeout callback raises:
    the mouse-leave handler, which removes the tooltip from its parent
    without checking that it has one, only ever meets a tooltip that is in
    the document, and a timeout only ever runs when the position function
    exists. *)
Theorem tooltip_handlers_never_raise (es : list Tooltip.event) :
  exists q, Tooltip.run es Tooltip.blank = Some q /\ Tooltip.consistent q.
Proof.
  assert (H : forall p, consistent p -> exists q, run es p = Some q /\ consistent q).
  { induction es as [|e es IH]; intros p Hp; simpl; [eauto|].
    destruct (step_consistent e p Hp) as (q & -> & Hq). simpl. now apply IH. }
  apply H, blank_consistent.
Qed.

End TooltipSafety.

Section TooltipPending.
Import Tooltip.

(** While no tooltip is shown, [update] leaves the document, the pending
    timeouts and the clock alone, and the position function stays. *)
Lemma update_frame (b : binding) (p : page) :
  tooltipElement (el p) = None ->
  updatePositionEvent (el p) <> None ->
  timers (update b p) = timers p /\ now (update b p) = now p
  /\ body (update b p) = body p
  /\ updatePositionEvent (el (update b p)) <> None.
Proof.
  intros Hn Hu. unfold update, initialize_or_terminate.
  destruct b as [v|v d];
    repeat match goal with
           | |- context [if ?c then _ else _] => destruct c
           end;
    simpl; rewrite ?Hn; repeat split; try assumption; discriminate.
Qed.

Lemma run_callbacks_one (text : JS.str) (p : page) :
  run_callbacks [text] p = show text p.
Proof. simpl. now destruct (show text p). Qed.

Lemma show_body (text : JS.str) (p q : page) :
  show text p = Some q ->
  body q = (fresh p, text) :: body p /\ el q = el q
  /\ on_mouseenter (el q) = on_mouseenter (el p)
  /\ on_mouseleave (el q) = on_mouseleave (el p)
  /\ value (el q) = value (el p)
  /\ timers q = timers p.
Proof.
  unfold show. destruct (updatePositionEvent (el p)); [|discriminate].
  intros [= <-]. simpl. tauto.
Qed.

(** X4. A tooltip that is pending when the binding is updated still
    appears, with the text the element had when the mouse entered: the
    update, whatever it binds (another text, nothing at all), does not
    touch the timeout. *)
Theorem pending_tooltip_shows_text_read_at_mouse_enter
    (text : JS.str) (d : option N) (update_position enter leave : id)
    (children : list (id * JS.str)) (time : N) (next : id)
    (b : binding) (k : nat) :
  text <> [] ->
  (N.max 1 (default 0%N d) <= N.of_nat k)%N ->
  let p := at_rest text d update_position enter leave children time next in
  exists q n,
    run ([MouseEnter; Update b] ++ wait k) p = Some q
    /\ body q = (n, text) :: children
    /\ tooltipElement (el q) = Some n
    /\ value (el q) = value (el (update b p)).
Proof.
  intros Htext Hk p. destruct text as [|c r]; [contradiction|]. unfold p. clear p.
  set (w := waiting (c :: r) d update_position enter leave children time
              (Pos.succ next) next (time + default 0%N d)).
  destruct (update_frame b w) as (Ht & Hn & Hb & Hu); [reflexivity|discriminate|].
  assert (Hrun : run ([MouseEnter; Update b] ++ wait k)
                   (at_rest (c :: r) d update_position enter leave children time next)
                 = show (c :: r) (advance (N.of_nat k) (set_timers [] (update b w)))).
  { change ([MouseEnter; Update b] ++ wait k) with (MouseEnter :: Update b :: wait k).
    rewrite (tooltip_run_first _ _ _ _ (enter_at_rest c r d _ _ _ _ _ _)).
    fold w. rewrite (tooltip_run_first _ _ _ (update b w)) by reflexivity.
    rewrite (tooltip_wait_fires k (time + default 0%N d)).
    - rewrite Ht. apply run_callbacks_one.
    - lia.
    - rewrite Ht. repeat constructor.
    - rewrite Hn. simpl. lia. }
  destruct (show (c :: r) (advance (N.of_nat k) (set_timers [] (update b w))))
    as [q|] eqn:Hq.
  - exists q, (fresh (update b w)). split; [exact Hrun|].
    pose proof Hq as Hq'. apply show_body in Hq' as (Hbody & _ & _ & _ & Hv & _).
    simpl in Hbody. rewrite Hb in Hbody. split; [exact Hbody|]. split.
    + unfold show in Hq. simpl in Hq.
      destruct (updatePositionEvent (el (update b w))); [|discriminate].
      now inversion Hq.
    + rewrite Hv. simpl.
      unfold update, initialize_or_terminate.
      destruct b as [v|v d']; simpl;
        repeat match goal with
               | |- context [if ?c then _ else _] => destruct c
               end; reflexivity.
  - exfalso. unfold show in Hq. simpl in Hq.
    destruct (updatePositionEvent (el (update b w))); [discriminate|]. now elim Hu.
Qed.

Lemma pending_tooltip_shows_text_read_at_mouse_enter_witness :
  JS.lit "Name" <> []
  /\ (N.max 1 (default 0%N (Some 300%N)) <= N.of_nat 300)%N
  /\ exists q n,
       run ([MouseEnter; Update (Plain Null)] ++ wait 300)
         (at_rest (JS.lit "Name") (Some 300%N) 1%positive 2%positive 3%positive [] 0%N 4%positive) = Some q
       /\ body q = (n, JS.lit "Name") :: []
       /\ tooltipElement (el q) = Some n
       /\ value (el q)
          = value (el (update (Plain Null)
                         (at_rest (JS.lit "Name") (Some 300%N) 1%positive 2%positive 3%positive [] 0%N 4%positive))).
Proof.
  assert (H1 : JS.lit "Name" <> []) by discriminate.
  assert (H2 : (N.max 1 (default 0%N (Some 300%N)) <= N.of_nat 300)%N)
    by (vm_compute; discriminate).
  split; [exact H1|]. split; [exact H2|].
  exact (pending_tooltip_shows_text_read_at_mouse_enter
           (JS.lit "Name") (Some 300%N) 1%positive 2%positive 3%positive [] 0%N 4%positive (Plain Null) 300 H1 H2).
Defined.

Lemma run_mouse_without_listeners (ms : list event) (p : page) :
  on_mouseenter (el p) = [] -> on_mouseleave (el p) = [] ->
  Forall (fun e => e = MouseEnter \/ e = MouseLeave) ms ->
  run ms p = Some p.
Proof.
  intros He Hl. induction 1 as [|e ms [->| ->] Hms IH]; simpl.
  - reflexivity.
  - rewrite He. simpl. exact IH.
  - rewrite Hl. simpl. exact IH.
Qed.

(** X5. [unbind] does not cancel a pending timeout: when the directive is
    unbound between mouse-enter and the end of the delay, the tooltip is
    still put into the document afterwards; the element then has no mouse
    listener left, so no mouse event removes it again. *)
Theorem unbind_leaves_pending_tooltip_to_appear
    (text : JS.str) (d : option N) (update_position enter leave : id)
    (children : list (id * JS.str)) (time : N) (next : id)
    (k : nat) (ms : list event) :
  text <> [] ->
  (N.max 1 (default 0%N d) <= N.of_nat k)%N ->
  Forall (fun e => e = MouseEnter \/ e = MouseLeave) ms ->
  let p := at_rest text d update_position enter leave children time next in
  exists q,
    run ([MouseEnter; Unbind] ++ wait k) p = Some q
    /\ body q = (Pos.succ next, text) :: children
    /\ on_mouseenter (el q) = [] /\ on_mouseleave (el q) = []
    /\ run (([MouseEnter; Unbind] ++ wait k) ++ ms) p = Some q.
Proof.
  intros Htext Hk Hms p. destruct text as [|c r]; [contradiction|]. unfold p. clear p.
  set (w := waiting (c :: r) d update_position enter leave children time
              (Pos.succ next) next (time + default 0%N d)).
  assert (Hrun : run ([MouseEnter; Unbind] ++ wait k)
                   (at_rest (c :: r) d update_position enter leave children time next)
                 = show (c :: r) (advance (N.of_nat k) (set_timers [] (terminate w)))).
  { change ([MouseEnter; Unbind] ++ wait k) with (MouseEnter :: Unbind :: wait k).
    rewrite (tooltip_run_first _ _ _ _ (enter_at_rest c r d _ _ _ _ _ _)).
    fold w. rewrite (tooltip_run_first _ _ _ (terminate w)) by reflexivity.
    rewrite (tooltip_wait_fires k (time + default 0%N d)).
    - apply run_callbacks_one.
    - lia.
    - repeat constructor.
    - simpl. lia. }
  destruct (show (c :: r) (advance (N.of_nat k) (set_timers [] (terminate w))))
    as [q|] eqn:Hq; [|discriminate].
  exists q. split; [exact Hrun|].
  assert (Hfacts : body q = (Pos.succ next, c :: r) :: children
                   /\ on_mouseenter (el q) = [] /\ on_mouseleave (el q) = []).
  { unfold show in Hq. simpl in Hq. inversion Hq. simpl.
    rewrite !Pos.eqb_refl. repeat split. }
  destruct Hfacts as (Hb & He & Hl). repeat split; try assumption.
  rewrite tooltip_run_app, Hrun. simpl.
  now apply run_mouse_without_listeners.
Qed.

Lemma unbind_leaves_pending_tooltip_to_appear_witness :
  JS.lit "Name" <> []
  /\ (N.max 1 (default 0%N None) <= N.of_nat 1)%N
  /\ Forall (fun e => e = MouseEnter \/ e = MouseLeave) [MouseEnter; MouseLeave]
  /\ exists q,
       run ([MouseEnter; Unbind] ++ wait 1)
         (at_rest (JS.lit "Name") None 1%positive 2%positive 3%positive [] 0%N 4%positive) = Some q
       /\ body q = (Pos.succ 4%positive, JS.lit "Name") :: []
       /\ on_mouseenter (el q) = [] /\ on_mouseleave (el q) = []
       /\ run (([MouseEnter; Unbind] ++ wait 1) ++ [MouseEnter; MouseLeave])
            (at_rest (JS.lit "Name") None 1%positive 2%positive 3%positive [] 0%N 4%positive) = Some q.
Proof.
  assert (H1 : JS.lit "Name" <> []) by discriminate.
  assert (H2 : (N.max 1 (default 0%N None) <= N.of_nat 1)%N)
    by (vm_compute; discriminate).
  assert (H3 : Forall (fun e => e = MouseEnter \/ e = MouseLeave)
                 [MouseEnter; MouseLeave]) by (repeat constructor; tauto).
  split; [exact H1|]. split; [exact H2|]. split; [exact H3|].
  exact (unbind_leaves_pending_tooltip_to_appear
           (JS.lit "Name") None 1%positive 2%positive 3%positive [] 0%N 4%positive 1 [MouseEnter; MouseLeave] H1 H2 H3).
Defined.

End TooltipPending.

Section TooltipListeners.
Import Tooltip.

Lemma bind_text_at_rest (text : JS.str) (d : option N) :
  text <> [] ->
  bind (Plain (Text text)) blank
  = at_rest text None 1%positive 2%positive 3%positive [] 0%N 4%positive
  /\ bind (Options (Text text) d) blank
     = at_rest text (Some (default 0%N d)) 1%positive 2%positive 3%positive []
         0%N 4%positive.
Proof.
  intros Htext. destruct text as [|c r]; [contradiction|].
  split; reflexivity.
Qed.

(** X7. After the bound text has changed once (from one non-empty text to
    another, no tooltip being shown), the element has two mouse-enter and
    two mouse-leave listeners, the old pair and a new one. One hover then
    creates two tooltips, of which mouse-leave removes only the one the
    element still holds: a tooltip with the new text stays in the document
    after the mouse has left. *)
Theorem text_change_makes_hover_leave_a_tooltip_behind
    (text1 text2 : JS.str) (k : nat) :
  text1 <> [] -> text2 <> [] -> text1 <> text2 -> 1 <= k ->
  exists q,
    run ([Bind (Plain (Text text1)); Update (Plain (Text text2)); MouseEnter]
         ++ wait k ++ [MouseLeave]) blank = Some q
    /\ body q = [(9%positive, text2)]
    /\ tooltipElement (el q) = None
    /\ timers q = []
    /\ on_mouseenter (el q) = [2%positive; 5%positive]
    /\ on_mouseleave (el q) = [3%positive; 6%positive].
Proof.
  intros H1 H2 Hne Hk.
  destruct text1 as [|c1 r1]; [contradiction|].
  destruct text2 as [|c2 r2]; [contradiction|].
  set (p1 := at_rest (c1 :: r1) None 1%positive 2%positive 3%positive [] 0%N 4%positive).
  set (p2 := initialize (set_value (Text (c2 :: r2)) None p1)).
  assert (Hs1 : step blank (Bind (Plain (Text (c1 :: r1)))) = Some p1) by reflexivity.
  assert (Hs2 : step p1 (Update (Plain (Text (c2 :: r2)))) = Some p2).
  { unfold step, update. case_bool_decide as E; [simpl in E; congruence|].
    reflexivity. }
  assert (Hs3 : exists w,
            step p2 MouseEnter = Some w
            /\ timers w = [ {| t_handle := 7%positive; t_due := 0%N; t_text := c2 :: r2 |};
                           {| t_handle := 8%positive; t_due := 0%N; t_text := c2 :: r2 |} ]
            /\ now w = 0%N
            /\ exists v,
                 run_callbacks [c2 :: r2; c2 :: r2]
                   (advance (N.of_nat k) (set_timers [] w)) = Some v
                 /\ exists q,
                      step v MouseLeave = Some q
                      /\ body q = [(9%positive, c2 :: r2)]
                      /\ tooltipElement (el q) = None
                      /\ timers q = []
                      /\ on_mouseenter (el q) = [2%positive; 5%positive]
                      /\ on_mouseleave (el q) = [3%positive; 6%positive]).
  { eexists. split; [vm_compute; reflexivity|]. split; [reflexivity|].
    split; [reflexivity|].
    eexists. split; [vm_compute; reflexivity|].
    eexists. split; [vm_compute; reflexivity|]. repeat split. }
  destruct Hs3 as (w & Hs3 & Htw & Hnw & v & Hv & q & Hq & Hfacts).
  exists q. split; [|exact Hfacts].
  change ([Bind (Plain (Text (c1 :: r1))); Update (Plain (Text (c2 :: r2))); MouseEnter]
          ++ wait k ++ [MouseLeave])
    with (Bind (Plain (Text (c1 :: r1))) :: Update (Plain (Text (c2 :: r2)))
          :: MouseEnter :: (wait k ++ [MouseLeave])).
  rewrite (tooltip_run_first _ _ _ _ Hs1), (tooltip_run_first _ _ _ _ Hs2),
    (tooltip_run_first _ _ _ _ Hs3).
  rewrite <- Hq. apply tooltip_run_then.
  rewrite (tooltip_wait_fires k 0%N); [|exact Hk| |lia].
  - rewrite Htw. exact Hv.
  - rewrite Htw. repeat constructor.
Qed.

Lemma text_change_makes_hover_leave_a_tooltip_behind_witness :
  JS.lit "Name" <> [] /\ JS.lit "Title" <> [] /\ JS.lit "Name" <> JS.lit "Title"
  /\ 1 <= 1
  /\ exists q,
       run ([Bind (Plain (Text (JS.lit "Name")));
             Update (Plain (Text (JS.lit "Title"))); MouseEnter]
            ++ wait 1 ++ [MouseLeave]) blank = Some q
       /\ body q = [(9%positive, JS.lit "Title")]
       /\ tooltipElement (el q) = None
       /\ timers q = []
       /\ on_mouseenter (el q) = [2%positive; 5%positive]
       /\ on_mouseleave (el q) = [3%positive; 6%positive].
Proof.
  assert (H1 : JS.lit "Name" <> []) by discriminate.
  assert (H2 : JS.lit "Title" <> []) by discriminate.
  assert (H3 : JS.lit "Name" <> JS.lit "Title") by discriminate.
  assert (H4 : 1 <= 1) by lia.
  split; [exact H1|]. split; [exact H2|]. split; [exact H3|]. split; [exact H4|].
  exact (text_change_makes_hover_leave_a_tooltip_behind
           (JS.lit "Name") (JS.lit "Title") 1 H1 H2 H3 H4).
Defined.

End TooltipListeners.

Section TooltipRerender.
Import Tooltip.

Lemma add_listener_new (f : id) (l : list id) (bound : id) :
  Forall (fun g => (g < bound)%positive) l -> (bound <= f)%positive ->
  add_listener f l = l ++ [f].
Proof.
  intros Hl Hf. unfold add_listener.
  rewrite bool_decide_eq_false_2; [reflexivity|].
  intros Hin. rewrite List.Forall_forall in Hl.
  apply list_elem_of_In in Hin. specialize (Hl f Hin). lia.
Qed.

Lemma initialize_adds_listeners (p : page) :
  listeners_older p ->
  on_mouseenter (el (initialize p))
  = on_mouseenter (el p) ++ [Pos.succ (fresh p)]
  /\ on_mouseleave (el (initialize p))
     = on_mouseleave (el p) ++ [Pos.succ (Pos.succ (fresh p))]
  /\ listeners_older (initialize p).
Proof.
  intros [He Hl]. unfold listeners_older. simpl.
  rewrite !(add_listener_new (Pos.succ (fresh p)) _ (fresh p)) by (assumption || lia).
  rewrite !(add_listener_new (Pos.succ (Pos.succ (fresh p))) _ (fresh p))
    by (assumption || lia).
  repeat split.
  - apply Forall_app. split.
    + eapply List.Forall_impl; [|exact He]. simpl. intros g Hg. lia.
    + repeat constructor. lia.
  - apply Forall_app. split.
    + eapply List.Forall_impl; [|exact Hl]. simpl. intros g Hg. lia.
    + repeat constructor. lia.
Qed.

Lemma update_without_delay_adds (c : N) (r : JS.str) (d : N) (p : page) :
  holds (c :: r) d p ->
  let q := update (Options (Text (c :: r)) None) p in
  holds (c :: r) 0 q
  /\ List.length (on_mouseenter (el q)) = S (List.length (on_mouseenter (el p)))
  /\ List.length (on_mouseleave (el q)) = S (List.length (on_mouseleave (el p))).
Proof.
  intros (Hv & Hd & Hn & Hold) q.
  set (p' := set_value (Text (c :: r)) (Some 0%N) p).
  assert (Hq : q = initialize p').
  { unfold q, update.
    rewrite (bool_decide_eq_false_2 (None = delay (el p))) by (rewrite Hd; discriminate).
    rewrite andb_false_r. unfold initialize_or_terminate.
    change (value (el (set_value (Text (c :: r)) (Some (default 0%N None)) p)))
      with (Text (c :: r)).
    change (tooltipElement (el (set_value (Text (c :: r)) (Some (default 0%N None)) p)))
      with (tooltipElement (el p)).
    rewrite Hn. reflexivity. }
  destruct (initialize_adds_listeners p') as (He & Hl & Hold'); [exact Hold|].
  rewrite Hq, He, Hl, !List.length_app. simpl.
  repeat split; try lia; try apply Hold'. exact Hn.
Qed.

Lemma update_unchanged (b : binding) (p : page) :
  (match b with
   | Plain v => v = value (el p)
   | Options v d => v = value (el p) /\ d = delay (el p)
   end) ->
  update b p = p.
Proof.
  destruct b as [v|v d]; simpl.
  - intros ->. now rewrite bool_decide_eq_true_2.
  - intros [-> ->]. now rewrite !bool_decide_eq_true_2.
Qed.

(** X8. Calling [update] again with the binding the element was bound
    with changes nothing when the binding is a text or an object with a
    delay. For an object without [delay] on a non-empty text it is never
    recognised as unchanged (the element stores the delay as 0): each such
    call registers one more mouse-enter and one more mouse-leave listener,
    so after [n] of them the element has [n + 1] of each. *)
Theorem update_with_same_binding (text : JS.str) (d : N) (n : nat) :
  text <> [] ->
  (forall b, b = Plain (Text text) \/ b = Options (Text text) (Some d) ->
     run (Bind b :: repeat (Update b) n) blank = Some (bind b blank))
  /\ exists q,
       run (Bind (Options (Text text) None)
            :: repeat (Update (Options (Text text) None)) n) blank = Some q
       /\ List.length (on_mouseenter (el q)) = S n
       /\ List.length (on_mouseleave (el q)) = S n.
Proof.
  intros Htext. destruct text as [|c r]; [contradiction|]. split.
  - intros b Hb. simpl.
    assert (Hsame : update b (bind b blank) = bind b blank).
    { apply update_unchanged. destruct Hb as [-> | ->]; simpl; tauto. }
    induction n as [|n IH]; simpl; [reflexivity|].
    rewrite Hsame. exact IH.
  - assert (Hgen : forall p d', holds (c :: r) d' p ->
               exists q,
                 run (repeat (Update (Options (Text (c :: r)) None)) n) p = Some q
                 /\ List.length (on_mouseenter (el q))
                    = List.length (on_mouseenter (el p)) + n
                 /\ List.length (on_mouseleave (el q))
                    = List.length (on_mouseleave (el p)) + n).
    { induction n as [|n IH]; intros p d' Hp; simpl.
      - exists p. repeat split; lia.
      - destruct (update_without_delay_adds c r d' p Hp) as (Hq & He & Hl).
        destruct (IH _ _ Hq) as (q & Hrun & He' & Hl').
        exists q. split; [exact Hrun|]. lia. }
    destruct (Hgen (bind (Options (Text (c :: r)) None) blank) 0%N)
      as (q & Hrun & He & Hl).
    + repeat split; simpl; repeat constructor.
    + exists q. split; [exact Hrun|]. simpl in He, Hl. lia.
Qed.

Lemma update_with_same_binding_witness :
  JS.lit "Name" <> []
  /\ (forall b,
        b = Plain (Text (JS.lit "Name")) \/ b = Options (Text (JS.lit "Name")) (Some 300%N) ->
        run (Bind b :: repeat (Update b) 3) blank = Some (bind b blank))
  /\ exists q,
       run (Bind (Options (Text (JS.lit "Name")) None)
            :: repeat (Update (Options (Text (JS.lit "Name")) None)) 3) blank = Some q
       /\ List.length (on_mouseenter (el q)) = 4
       /\ List.length (on_mouseleave (el q)) = 4.
Proof.
  assert (H : JS.lit "Name" <> []) by discriminate.
  split; [exact H|].
  exact (update_with_same_binding (JS.lit "Name") 300%N 3 H).
Defined.

End TooltipRerender.

(** ** Trimming and the validators *)

Lemma trimStart_fixed (s : JS.str) :
  match s with
  | [] => True
  | c :: _ => JS.isWhiteSpace c = false
  end ->
  JS.trimStart s = s.
Proof. destruct s as [|c r]; simpl; [reflexivity|]. now intros ->. Qed.

Lemma trimStart_head (s : JS.str) :
  match JS.trimStart s with
  | [] => True
  | c :: _ => JS.isWhiteSpace c = false
  end.
Proof.
  induction s as [|c r IH]; simpl; [exact I|].
  destruct (JS.isWhiteSpace c) eqn:E; [exact IH|exact E].
Qed.

Lemma trimStart_idempotent (s : JS.str) :
  JS.trimStart (JS.trimStart s) = JS.trimStart s.
Proof. apply trimStart_fixed, trimStart_head. Qed.

(** What [trimStart] drops is whitespace. *)
Lemma trimStart_prefix (s : JS.str) :
  exists ws, s = ws ++ JS.trimStart s /\ forallb JS.isWhiteSpace ws = true.
Proof.
  induction s as [|c r (ws & Hr & Hws)]; simpl.
  - exists []. split; reflexivity.
  - destruct (JS.isWhiteSpace c) eqn:E.
    + exists (c :: ws). simpl. rewrite E, Hws. split; [now f_equal|reflexivity].
    + exists []. split; reflexivity.
Qed.

Lemma trimEnd_idempotent (s : JS.str) :
  JS.trimEnd (JS.trimEnd s) = JS.trimEnd s.
Proof.
  unfold JS.trimEnd. now rewrite rev_involutive, trimStart_idempotent.
Qed.

(** Trimming the end of a string that has no whitespace in front leaves
    none in front. *)
Lemma trimEnd_head (s : JS.str) :
  match s with
  | [] => True
  | c :: _ => JS.isWhiteSpace c = false
  end ->
  match JS.trimEnd s with
  | [] => True
  | c :: _ => JS.isWhiteSpace c = false
  end.
Proof.
  intros Hs. unfold JS.trimEnd.
  destruct (trimStart_prefix (rev s)) as (ws & Hrev & Hws).
  assert (Hsplit : s = rev (JS.trimStart (rev s)) ++ rev ws).
  { rewrite <- rev_app_distr, <- Hrev. now rewrite rev_involutive. }
  destruct (rev (JS.trimStart (rev s))) as [|c r] eqn:E; [exact I|].
  rewrite Hsplit in Hs. exact Hs.
Qed.

Lemma trim_idempotent (s : JS.str) : JS.trim (JS.trim s) = JS.trim s.
Proof.
  unfold JS.trim.
  rewrite (trimStart_fixed (JS.trimEnd (JS.trimStart s))).
  - apply trimEnd_idempotent.
  - apply trimEnd_head, trimStart_head.
Qed.

(** X9. [required] and the components' own validators (both uniqueness
    checks, the reserved-name check and the format check) judge the
    trimmed value: whitespace around the candidate never changes their
    verdict. [maxLength] does not trim: a one-letter name padded with
    spaces beyond the bound is too long, though its trimmed form is within
    any bound of at least one. *)
Theorem validators_ignore_surrounding_whitespace
    (max : N) (reserved : list JS.str) (s : JS.str)
    (field : FieldForm.vm) (table : TableForm.vm) :
  result (Vuelidate.required (JS.trim s)) field = result (Vuelidate.required s) field
  /\ result (FieldForm.mustHaveUniqueFieldName (JS.trim s)) field
     = result (FieldForm.mustHaveUniqueFieldName s) field
  /\ result (FieldForm.mustHaveUniqueFieldAPIName (JS.trim s)) field
     = result (FieldForm.mustHaveUniqueFieldAPIName s) field
  /\ result (FieldForm.mustNotClashWithReservedName reserved (JS.trim s)) field
     = result (FieldForm.mustNotClashWithReservedName reserved s) field
  /\ result (FieldForm.mustUseValidAPINameCharacters (JS.trim s)) field
     = result (FieldForm.mustUseValidAPINameCharacters s) field
  /\ result (TableForm.mustUseValidAPINameCharacters (JS.trim s)) table
     = result (TableForm.mustUseValidAPINameCharacters s) table
  /\ result (Vuelidate.maxLength max (97%N :: repeat 32%N (N.to_nat max))) field = false
  /\ result (Vuelidate.maxLength max
               (JS.trim (97%N :: repeat 32%N (N.to_nat max)))) field
     = N.leb 1 max.
Proof.
  repeat apply conj.
  - unfold result, Vuelidate.required. simpl. now rewrite trim_idempotent.
  - unfold FieldForm.mustHaveUniqueFieldName.
    rewrite !result_bind by apply fields_but_existing_readonly.
    unfold result at 1 3. simpl. now rewrite trim_idempotent.
  - unfold FieldForm.mustHaveUniqueFieldAPIName.
    rewrite !result_bind by apply fields_but_existing_readonly.
    unfold result at 1 3. simpl. now rewrite trim_idempotent.
  - unfold result, FieldForm.mustNotClashWithReservedName. simpl.
    now rewrite trim_idempotent.
  - rewrite !FieldForm_format_result. now rewrite trim_idempotent.
  - rewrite !TableForm_format_result. now rewrite trim_idempotent.
  - unfold result, Vuelidate.maxLength, Vuelidate.req, Vuelidate.len. simpl.
    rewrite List.repeat_length. apply N.leb_gt. lia.
  - assert (Ht : JS.trim (97%N :: repeat 32%N (N.to_nat max)) = [97%N]).
    { unfold JS.trim. simpl. unfold JS.trimEnd. simpl.
      assert (Hrev : forall n, JS.trimStart (rev (repeat 32%N n) ++ [97%N]) = [97%N]).
      { intros n. rewrite rev_repeat. induction n as [|n IH]; simpl; [reflexivity|exact IH]. }
      now rewrite Hrev. }
    rewrite Ht. reflexivity.
Qed.

(** ** The field form: the rules of a field as a whole *)

Section FieldFormRules.
Variable max : N.
Variable reserved : list JS.str.

Lemma reserved_check_fails_iff (this : FieldForm.vm) (s : JS.str) :
  result (FieldForm.mustNotClashWithReservedName reserved s) this = false
  <-> In (JS.trim s) reserved.
Proof.
  unfold result, FieldForm.mustNotClashWithReservedName. simpl.
  rewrite negb_false_iff, includes_In, List.in_map_iff. split.
  - intros (x & [= ->] & Hx). exact Hx.
  - intros H. exists (JS.trim s). split; [reflexivity|exact H].
Qed.

(** X10. The rules of the field form's [name], taken together: a name is
    accepted exactly when it is not blank, has at most
    [MAX_FIELD_NAME_LENGTH] characters (counted untrimmed), is after
    trimming not the name of any other field of the table, and is after
    trimming not a reserved name. *)
Theorem field_name_accepted_iff (this : FieldForm.vm) (s : JS.str) (dirty : bool) :
  let rules :=
    default [] (Form.lookup_field "name"
                  (result (FieldForm.validations max reserved) this)) in
  let v := {| Vuelidate.f_dirty := dirty;
              Vuelidate.f_results := result (Vuelidate.run_rules rules s) this |} in
  Vuelidate.invalid v = false
  <-> JS.trim s <> []
      /\ (N.of_nat (List.length s) <= max)%N
      /\ ~ (exists f, In f (FieldForm.fields this)
              /\ (result FieldForm.existingFieldId this = JS.VNull
                  \/ Form.prop f "id" <> result FieldForm.existingFieldId this)
              /\ Form.prop f "name" = JS.VString (JS.trim s))
      /\ ~ In (JS.trim s) reserved.
Proof.
  intros rules v.
  assert (Hrules : rules
                   = [ ("required", Vuelidate.required);
                       ("maxLength", Vuelidate.maxLength max);
                       ("mustHaveUniqueFieldName", FieldForm.mustHaveUniqueFieldName);
                       ("mustNotClashWithReservedName",
                        FieldForm.mustNotClashWithReservedName reserved) ]).
  { unfold rules. now rewrite FieldForm_validations_result. }
  unfold v, Vuelidate.invalid. simpl. rewrite Hrules.
  rewrite run_rules_result.
  2:{ repeat (constructor; simpl); intros value;
        first [ apply required_readonly | apply maxLength_readonly
              | apply mustHaveUniqueFieldName_readonly
              | apply mustNotClashWithReservedName_readonly ]. }
  simpl. rewrite orb_false_r.
  pose proof (required_passes_iff this s) as Hreq.
  pose proof (maxLength_passes_iff max this s) as Hmax.
  assert (Huniq : result (FieldForm.mustHaveUniqueFieldName s) this = false
                  <-> exists f, In f (FieldForm.fields this)
                        /\ (result FieldForm.existingFieldId this = JS.VNull
                            \/ Form.prop f "id" <> result FieldForm.existingFieldId this)
                        /\ Form.prop f "name" = JS.VString (JS.trim s)).
  { unfold FieldForm.mustHaveUniqueFieldName.
    rewrite result_bind by apply fields_but_existing_readonly.
    apply unique_check_fails_iff. }
  pose proof (reserved_check_fails_iff this s) as Hres.
  destruct (result (Vuelidate.required s) this),
    (result (Vuelidate.maxLength max s) this),
    (result (FieldForm.mustHaveUniqueFieldName s) this),
    (result (FieldForm.mustNotClashWithReservedName reserved s) this); simpl;
    split; try discriminate; try reflexivity.
  all: try (intros _; repeat split;
            [ now apply Hreq
            | destruct Hmax as [[E|Hm] _]; [reflexivity| |exact Hm];
              subst s; exfalso; now apply (proj1 Hreq)
            | intros H; apply Huniq in H; discriminate
            | intros H; apply Hres in H; discriminate ]).
  all: intros (H1 & H2 & H3 & H4); exfalso.
  all: try (apply H4, Hres; reflexivity).
  all: try (apply H3, Huniq; reflexivity).
  all: try (assert (Hm : false = true) by (apply Hmax; now right); discriminate).
  all: try (assert (Hr : false = true) by (now apply Hreq); discriminate).
Qed.

Lemma create_has_values (p : FieldForm.props) (fields : list Form.obj) :
  ruled_fields_have_values (FieldForm.create p fields).
Proof.
  unfold ruled_fields_have_values, FieldForm.model, FieldForm.create,
    FieldForm.data. simpl.
  destruct (FieldForm.creating p); simpl; repeat split; eauto; discriminate.
Qed.

Lemma insert_keeps_value (m : gmap string JS.str) (key k : string) (typed : JS.str) :
  is_Some (m !! k) -> is_Some (<[ key := typed ]> m !! k).
Proof.
  intros H. destruct (decide (key = k)) as [->|Hne].
  - rewrite lookup_insert_eq. eauto.
  - now rewrite lookup_insert_ne.
Qed.

Lemma step_keeps_values (st : list (gmap string JS.str) * FieldForm.vm)
    (e : FieldForm.event) :
  ruled_fields_have_values (snd st) ->
  ruled_fields_have_values (snd (FieldForm.step max reserved st e)).
Proof.
  destruct st as [emitted this]. intros (Hn & Ht & Ha).
  destruct e as [key typed|key|]; simpl.
  - unfold after, FieldForm.input, modify. simpl.
    destruct (FieldForm.rendered this key); [|now repeat split].
    repeat split; simpl; try (apply insert_keeps_value; assumption).
    intros Hc. apply insert_keeps_value. now apply Ha.
  - now repeat split.
  - destruct (submit_run max reserved this) as [d ->].
    destruct (result (FieldForm.invalid max reserved) this); now repeat split.
Qed.

(** X11. [data()] gives [values] a key for every field [validations()]
    declares rules for, in creation and in edit mode alike, and nothing a
    user does (typing, leaving a field, submitting) removes one: from any
    instance whose [values] have these keys, a new one in particular, after
    any session every declared field still has its key, so that each is
    evaluated on the value stored under it, and the evaluated fields are
    the declared ones, in their order. *)
Theorem every_ruled_field_keeps_its_key
    (p : FieldForm.props) (fields : list Form.obj)
    (this : FieldForm.vm) (es : list FieldForm.event) :
  ruled_fields_have_values this ->
  ruled_fields_have_values (FieldForm.create p fields)
  /\ (let this' := snd (FieldForm.session max reserved es this) in
      ruled_fields_have_values this'
      /\ Forall (fun kr => is_Some (snd kr))
           (result (FieldForm.evaluate max reserved) this')
      /\ List.map fst (result (FieldForm.evaluate max reserved) this')
         = List.map fst (result (FieldForm.validations max reserved) this')).
Proof.
  intros Hthis. split; [apply create_has_values|].
  intros this'.
  assert (Hinv : ruled_fields_have_values this').
  { unfold this', FieldForm.session.
    assert (Hgen : forall st, ruled_fields_have_values (snd st) ->
              ruled_fields_have_values
                (snd (fold_left (FieldForm.step max reserved) es st))).
    { induction es as [|e es' IH]; intros st Hst; simpl; [exact Hst|].
      apply IH. now apply step_keeps_values. }
    apply Hgen. exact Hthis. }
  split; [exact Hinv|].
  destruct Hinv as (Hn & Ht & Ha).
  rewrite FieldForm_evaluate_result.
  rewrite run_fields_result by apply FieldForm_rulemap_readonly.
  rewrite FieldForm_validations_result.
  split.
  - destruct (FieldForm.creating (FieldForm.prp this')) eqn:Hc; simpl;
      repeat constructor; simpl.
    + destruct Hn as [x ->]. eauto.
    + destruct Ht as [x ->]. eauto.
    + destruct Hn as [x ->]. eauto.
    + destruct Ht as [x ->]. eauto.
    + destruct (Ha eq_refl) as [x ->]. eauto.
  - destruct (FieldForm.creating (FieldForm.prp this')); reflexivity.
Qed.

End FieldFormRules.

Lemma every_ruled_field_keeps_its_key_witness :
  let p := {| FieldForm.table := ∅; FieldForm.primary := false;
              FieldForm.forcedType := None; FieldForm.creating := false;
              FieldForm.defaultValues := None |} in
  let this :=
    FieldForm.set_values
      {[ "name" := JS.lit "Title"; "type" := JS.lit "text";
         "api_name" := JS.lit "title" ]}
      (FieldForm.create p []) in
  let es := [ FieldForm.Input "api_name" (JS.lit "heading");
              FieldForm.Blur "api_name"; FieldForm.Submit ] in
  ruled_fields_have_values this
  /\ ruled_fields_have_values
       (snd (FieldForm.session 255 [] es this)).
Proof.
  intros p this es.
  assert (H : ruled_fields_have_values this).
  { unfold ruled_fields_have_values, FieldForm.model. simpl.
    repeat split; eauto. }
  split; [exact H|].
  exact (proj1 (proj2 (every_ruled_field_keeps_its_key 255 [] p [] this es H))).
Defined.

(** ** A blank api_name *)

(** X12. When the api_name is blank (empty after trimming), both
    [required] and the format rule fail, in both forms, and the slot of a
    dirty field shows the one message "required", focused or not; the
    format message and the warning are not shown. *)
Theorem blank_api_name_shows_required_only
    (max : N) (s : JS.str) (table : TableForm.vm) (field : FieldForm.vm)
    (api_name_focused : bool) :
  JS.trim s = [] ->
  (let rules :=
     default [] (Form.lookup_field "api_name"
                   (result (TableForm.validations max) table)) in
   let v := {| Vuelidate.f_dirty := true;
               Vuelidate.f_results := result (Vuelidate.run_rules rules s) table |} in
   Vuelidate.rule v "required" = false
   /\ Vuelidate.rule v "mustUseValidAPINameCharacters" = false
   /\ TableForm.api_name_message v api_name_focused
      = Some (Template.Error Form.requiredField))
  /\ (let v := {| Vuelidate.f_dirty := true;
                  Vuelidate.f_results :=
                    result (Vuelidate.run_rules (FieldForm.api_name_rules max) s)
                      field |} in
      Vuelidate.rule v "required" = false
      /\ Vuelidate.rule v "mustUseValidAPINameCharacters" = false
      /\ FieldForm.api_name_control false v api_name_focused
         = Some (Template.Error Form.requiredField)).
Proof.
  intros Hblank.
  assert (Hreq : forall S (this : S), result (Vuelidate.required s) this = false).
  { intros S this. unfold result, Vuelidate.required. simpl. now rewrite Hblank. }
  split.
  - simpl. unfold Vuelidate.rule. simpl.
    rewrite method_format_test, Hblank. repeat apply conj; try reflexivity.
    unfold TableForm.api_name_message. simpl. unfold Vuelidate.rule. simpl.
    now rewrite Hblank.
  - simpl. unfold Vuelidate.rule. simpl.
    rewrite method_format_test, Hblank. repeat apply conj; try reflexivity.
    unfold FieldForm.api_name_control, FieldForm.api_name_message. simpl.
    unfold Vuelidate.rule. simpl.
    now rewrite Hblank.
Qed.

Lemma blank_api_name_shows_required_only_witness :
  JS.trim (JS.lit "   ") = []
  /\ Vuelidate.rule
       {| Vuelidate.f_dirty := true;
          Vuelidate.f_results :=
            result (Vuelidate.run_rules
                      (default [] (Form.lookup_field "api_name"
                                     (result (TableForm.validations 255)
                                        (TableForm.create ∅ None))))
                      (JS.lit "   "))
              (TableForm.create ∅ None) |} "required" = false.
Proof.
  assert (H : JS.trim (JS.lit "   ") = []) by reflexivity.
  split; [exact H|].
  exact (proj1 (proj1 (blank_api_name_shows_required_only 255 (JS.lit "   ")
                         (TableForm.create ∅ None)
                         (FieldForm.create
                            {| FieldForm.table := ∅; FieldForm.primary := false;
                               FieldForm.forcedType := None;
                               FieldForm.creating := false;
                               FieldForm.defaultValues := None |} [])
                         true H))).
Defined.

(** ** The warning over whole sessions *)

Section ApiNameSessionFacts.
Import ApiNameWarning ApiNameSession.











(** *** The form and the timers side by side *)







(** *** What the slot renders *)





End ApiNameSessionFacts.
